(** * Adaptive PE client: key codec, history decoder and tabulator

    A shallow embedding of the algorithmic core of [adaptive_api/pe.py]:
    [to_key_string], [id_to_string], [string_to_id], [id_equals],
    [_fix_history] and [history_to_csv], together with the properties the
    specification states about them.  Part III adds properties read off
    the code itself, and covers also [contrasting_color],
    [group_resource_events], the addresses built by [BaseApi] and
    [ApiLive.url_command_icon].

    Modelling choices:
    - Python integers are unbounded and are modelled by [Z].  The values
      of a tag are scalars or floats: a float is an IEEE 754 double, one of
      Rocq's primitive floats, with the addition of the processor and the
      conversion from [int] rounded to nearest, ties to even.  Elapsed
      times and recorded indexes are ints, as their type [List[int]]
      says.  Lists and dictionaries among the values of a tag are outside
      the embedding.
    - Strings are Rocq strings of ASCII characters; [int] and [str] are
      modelled on them, without the interpreter's configurable limit on the
      number of digits converted.
    - A call that can raise returns a [result]; [_fix_history], which
      mutates its argument, returns the record as the call leaves it
      together with the exception raised, if any.
    - [datetime] arithmetic with [strftime], [str] on a float, and
      [csv.writer], are parameters of the tabulator.
    - The dictionaries of [group_resource_events] are finite maps, so two
      results are equal as Python's [==] makes them, whatever the order of
      insertion; the [requests] session of [BaseApi] is left out. *)

From Stdlib Require Import ZArith List String Ascii Lia Bool.
From Stdlib Require Import Decimal DecimalString DecimalPos.
From Stdlib Require Import PrimFloat SpecFloat FloatOps.
From stdpp Require Import base list strings gmap.

Open Scope Z_scope.

(* ================================================================== *)
(** * Part I: the embedding                                             *)
(* ================================================================== *)

(** ** Python values and exceptions *)

Module Py.

(** The exceptions the modelled functions can raise. *)
Inductive exn : Type :=
| TypeError
| IndexError
| ValueError
| OverflowError.

(** A call either returns a value or raises. *)
Inductive result (A : Type) : Type :=
| Ok (a : A)
| Raise (e : exn).

Arguments Ok {A} a.
Arguments Raise {A} e.

Definition bind {A B : Type} (r : result A) (k : A -> result B) : result B :=
  match r with
  | Ok a => k a
  | Raise e => Raise e
  end.

(** The scalar values that occur in identifiers and in tag streams
    ([Any] in the type hints): [None], booleans, ints and strings.  A tag
    stream can hold floats as well: see [value] below. *)
Inductive pyval : Type :=
| VNone
| VBool (b : bool)
| VInt (z : Z)
| VStr (s : string).

(** [x == y] on scalars.  [bool] is a subclass of [int], so [True == 1]
    and [False == 0]; values of unrelated types are never equal. *)
Definition py_eq (x y : pyval) : bool :=
  match x, y with
  | VNone, VNone => true
  | VBool a, VBool b => Bool.eqb a b
  | VBool a, VInt z => Z.b2z a =? z
  | VInt z, VBool a => z =? Z.b2z a
  | VInt a, VInt b => a =? b
  | VStr a, VStr b => String.eqb a b
  | _, _ => false
  end.

(** Element-wise [==] of two lists: same length and pairwise equal. *)
Fixpoint py_list_eq (x y : list pyval) : bool :=
  match x, y with
  | [], [] => true
  | xv :: x', yv :: y' => py_eq xv yv && py_list_eq x' y'
  | _, _ => false
  end.

(** A value of a tag ([List[Any]]): a scalar, or a float, which is what a
    JSON number written with a fraction or an exponent becomes. *)
Inductive value : Type :=
| Plain (v : pyval)
| VFloat (f : float).

(** The int [z] as a value. *)
Definition int_value (z : Z) : value := Plain (VInt z).

(** Truth value, as used by [not]: a float is false when it equals zero,
    so that a NaN is true. *)
Definition py_truth (v : value) : bool :=
  match v with
  | Plain VNone => false
  | Plain (VBool b) => b
  | Plain (VInt z) => negb (z =? 0)
  | Plain (VStr s) => negb (String.eqb s "")
  | VFloat f => negb (PrimFloat.eqb f zero)
  end.

(** [not v] always yields a [bool]. *)
Definition py_not (v : value) : value := Plain (VBool (negb (py_truth v))).

(** [str(z)] for an int: canonical decimal, with a leading minus sign
    for negative numbers. *)
Definition str_int (z : Z) : string := NilZero.string_of_int (Z.to_int z).

(** [str(v)]. *)
Definition py_str (v : pyval) : string :=
  match v with
  | VNone => "None"
  | VBool true => "True"
  | VBool false => "False"
  | VInt z => str_int z
  | VStr s => s
  end.

(** A number: what the running sum over the values of a tag is, an int
    until a float has been added to it. *)
Inductive number : Type :=
| NInt (z : Z)
| NFloat (f : float).

Definition number_value (n : number) : value :=
  match n with
  | NInt z => Plain (VInt z)
  | NFloat f => VFloat f
  end.

(** The conversion of an int that is added to a float: the nearest double,
    ties to even, and an [OverflowError] when the int is too large for a
    finite one. *)
Definition float_of_int (z : Z) : result float :=
  let f := SF2Prim (binary_normalize prec emax z 0 false) in
  if is_infinity f then Raise OverflowError else Ok f.

(** [prev + v] where [prev] is a number.  Ints and booleans add exactly;
    as soon as one side is a float the other is converted and the sum is
    the rounded sum of two doubles; [None] and strings are a
    [TypeError]. *)
Definition py_add (prev : number) (v : value) : result number :=
  match prev, v with
  | _, Plain VNone | _, Plain (VStr _) => Raise TypeError
  | NInt p, Plain (VInt z) => Ok (NInt (p + z))
  | NInt p, Plain (VBool b) => Ok (NInt (p + Z.b2z b))
  | NInt p, VFloat f =>
      bind (float_of_int p) (fun g => Ok (NFloat (PrimFloat.add g f)))
  | NFloat p, Plain (VInt z) =>
      bind (float_of_int z) (fun g => Ok (NFloat (PrimFloat.add p g)))
  | NFloat p, Plain (VBool b) =>
      bind (float_of_int (Z.b2z b)) (fun g => Ok (NFloat (PrimFloat.add p g)))
  | NFloat p, VFloat f => Ok (NFloat (PrimFloat.add p f))
  end.

End Py.
Export Py.

Notation "x <- r ;; k" := (Py.bind r (fun x => k))
  (at level 100, r at next level, right associativity, only parsing).

(** ** History records *)

(** [Tag.type] is either a kind name or a structured description. *)
Inductive tag_type : Type :=
| TypeName (s : string)
| TypeSpec (d : list (string * pyval)).

Definition type_is (ty : tag_type) (kind : string) : bool :=
  match ty with
  | TypeName s => String.eqb s kind
  | TypeSpec _ => false
  end.

(** [HistoryTag]: the descriptive fields of [Tag] that the decoder and the
    tabulator never read (category, description, limits, format) are left
    out. *)
Record HistoryTag : Type := mkHistoryTag {
  name : string;
  type : tag_type;
  elapsedIndexes : list Z;
  values : list value
}.

(** A [datetime] is an instant, counted in microseconds; its calendar
    rendering is a parameter of the tabulator. *)
Definition datetime : Type := Z.

Record AdaptiveHistory : Type := mkAdaptiveHistory {
  id : string;
  start : datetime;
  stop : datetime;  (* [end] in the source *)
  elapsedTimes : list Z;
  tags : list HistoryTag
}.

(** ** History decoder: [_fix_history] *)

(** The first loop of [_fix_history], with [n] iterations still to run
    from index [i]: [elapsed_times] is read and overwritten slot by slot.
    [i] stays below [len(elapsed_times)], so the slot is always there. *)
Fixpoint elapsed_times_loop (n i : nat) (prev prev_delta : Z)
    (elapsed_times : list Z) : list Z :=
  match n with
  | O => elapsed_times
  | S n' =>
      match elapsed_times !! i with
      | Some e =>
          let delta := prev_delta + e in
          let value := prev + delta in
          elapsed_times_loop n' (S i) value delta (<[i := value]> elapsed_times)
      | None => elapsed_times
      end
  end.

Definition fix_elapsed_times (elapsed_times : list Z) : list Z :=
  elapsed_times_loop (length elapsed_times) 0 0 0 elapsed_times.

(** The per-tag loop over [elapsed_indexes]. *)
Fixpoint elapsed_indexes_loop (n i : nat) (prev : Z) (elapsed_indexes : list Z)
  : list Z :=
  match n with
  | O => elapsed_indexes
  | S n' =>
      match elapsed_indexes !! i with
      | Some e =>
          let value := prev + e in
          elapsed_indexes_loop n' (S i) value (<[i := value]> elapsed_indexes)
      | None => elapsed_indexes
      end
  end.

Definition fix_elapsed_indexes (elapsed_indexes : list Z) : list Z :=
  elapsed_indexes_loop (length elapsed_indexes) 0 0 elapsed_indexes.

(** The loop over [values] of a number or date tag.  When
    [prev + values[i]] raises, the slots before [i] already hold their sums
    and the slots from [i] on keep their wire content. *)
Fixpoint number_values_loop (n i : nat) (prev : number) (values : list value)
  : list value * option exn :=
  match n with
  | O => (values, None)
  | S n' =>
      match values !! i with
      | Some v =>
          match py_add prev v with
          | Ok value =>
              number_values_loop n' (S i) value
                (<[i := number_value value]> values)
          | Raise e => (values, Some e)
          end
      | None => (values, None)
      end
  end.

Definition fix_number_values (values : list value) : list value * option exn :=
  number_values_loop (length values) 0 (NInt 0) values.

(** *** The loops as streams

    Each loop reads slot [i] once, before it overwrites it, and never comes
    back to it: what it leaves in the list is the stream of the values it
    emits.  The properties are proved on the streams. *)

Fixpoint elapsed_stream (prev prev_delta : Z) (elapsed_times : list Z) : list Z :=
  match elapsed_times with
  | [] => []
  | e :: rest =>
      let delta := prev_delta + e in
      let value := prev + delta in
      value :: elapsed_stream value delta rest
  end.

Fixpoint index_stream (prev : Z) (elapsed_indexes : list Z) : list Z :=
  match elapsed_indexes with
  | [] => []
  | e :: rest =>
      let value := prev + e in
      value :: index_stream value rest
  end.

Fixpoint number_stream (prev : number) (values : list value)
  : list value * option exn :=
  match values with
  | [] => ([], None)
  | v :: rest =>
      match py_add prev v with
      | Raise e => (v :: rest, Some e)
      | Ok value =>
          let '(rest', o) := number_stream value rest in
          (number_value value :: rest', o)
      end
  end.

(** The value of [prev] when the loop has run over [values]. *)
Fixpoint running_sum (prev : number) (values : list value) : result number :=
  match values with
  | [] => Ok prev
  | v :: rest => value <- py_add prev v ;; running_sum value rest
  end.

(** [for i in range(1, n): last_value = not last_value; append], as the
    number [k] of iterations still to run. *)
Fixpoint alternate (last_value : value) (k : nat) : list value :=
  match k with
  | O => []
  | S k' =>
      let last_value := py_not last_value in
      last_value :: alternate last_value k'
  end.

Definition expanded_values (last_value : value) (n : nat) : list value :=
  last_value :: alternate last_value (n - 1).

(** The body of [for tag in history.tags]: the tag after the body has run,
    and the exception that interrupted it, if any. *)
Definition fix_tag (tag : HistoryTag) : HistoryTag * option exn :=
  let elapsed_indexes := fix_elapsed_indexes (elapsedIndexes tag) in
  if type_is (type tag) "number" || type_is (type tag) "date" then
    let '(values', o) := fix_number_values (values tag) in
    (mkHistoryTag (name tag) (type tag) elapsed_indexes values', o)
  else if type_is (type tag) "boolean" then
    match values tag with
    | last_value :: _ =>
        (mkHistoryTag (name tag) (type tag) elapsed_indexes
           (expanded_values last_value (length elapsed_indexes)), None)
    | [] => (mkHistoryTag (name tag) (type tag) elapsed_indexes [], None)
    end
  else
    (mkHistoryTag (name tag) (type tag) elapsed_indexes (values tag), None).

(** The loop over the tags stops at the first tag whose body raises; the
    tags after it are left in wire form. *)
Fixpoint fix_tags (tags : list HistoryTag) : list HistoryTag * option exn :=
  match tags with
  | [] => ([], None)
  | tag :: rest =>
      match fix_tag tag with
      | (tag', Some e) => (tag' :: rest, Some e)
      | (tag', None) =>
          let '(rest', o) := fix_tags rest in
          (tag' :: rest', o)
      end
  end.

(** [_fix_history] mutates its argument: the result is the record as the
    call leaves it, and the exception it raised, if any. *)
Definition _fix_history (history : AdaptiveHistory) : AdaptiveHistory * option exn :=
  let elapsed_times := fix_elapsed_times (elapsedTimes history) in
  let '(tags', o) := fix_tags (tags history) in
  (mkAdaptiveHistory (id history) (start history) (stop history)
     elapsed_times tags',
   o).

(** ** Differences of a sequence, used to state the decoding laws *)

(** First difference, taking the element before the first as [prev]. *)
Fixpoint difference (prev : Z) (l : list Z) : list Z :=
  match l with
  | [] => []
  | x :: rest => (x - prev) :: difference x rest
  end.

Definition first_difference (l : list Z) : list Z := difference 0 l.
Definition second_difference (l : list Z) : list Z :=
  first_difference (first_difference l).

(** The values [prev_delta] takes in the first loop of [_fix_history]:
    the running sums of the wire entries. *)
Definition running_deltas (d : list Z) : list Z := index_stream 0 d.

(** Each entry is at least the one before it. *)
Fixpoint non_decreasing (l : list Z) : Prop :=
  match l with
  | [] => True
  | x :: rest =>
      match rest with
      | [] => True
      | y :: _ => x <= y /\ non_decreasing rest
      end
  end.

(** ** Predicates on tags, used to state the decoding laws *)

Definition total (l : list Z) : Z := fold_right Z.add 0 l.

(** A tag whose declared kind selects the cumulative-sum decoding. *)
Definition is_number_kind (tag : HistoryTag) : bool :=
  type_is (type tag) "number" || type_is (type tag) "date".

Definition is_boolean_kind (tag : HistoryTag) : bool :=
  type_is (type tag) "boolean".

(** One value per recorded index. *)
Definition arity_ok (tag : HistoryTag) : Prop :=
  length (values tag) = length (elapsedIndexes tag).

(** The values a number can be added to: ints, booleans and floats. *)
Definition is_number (v : value) : bool :=
  match v with
  | Plain (VInt _) | Plain (VBool _) | VFloat _ => true
  | Plain VNone | Plain (VStr _) => false
  end.

(** The values that add exactly: ints and booleans. *)
Definition is_int (v : value) : bool :=
  match v with
  | Plain (VInt _) | Plain (VBool _) => true
  | _ => false
  end.

(** Every value of a number or date tag is a number. *)
Definition numbers_where_expected (tag : HistoryTag) : Prop :=
  is_number_kind tag = true -> Forall (fun v => is_number v = true) (values tag).

(** Every value of a number or date tag is an int or a boolean. *)
Definition ints_where_expected (tag : HistoryTag) : Prop :=
  is_number_kind tag = true -> Forall (fun v => is_int v = true) (values tag).

(** ** Tabulator: [history_to_csv] *)

(** The two work lists of [history_to_csv], one slot per tag. *)
Record cursors : Type := mkCursors {
  last_values : list value;
  tag_pointers : list nat
}.

Definition initial_cursors (num_tags : nat) : cursors :=
  mkCursors (replicate num_tags (Plain VNone)) (replicate num_tags 0%nat).

(** [l[i]] for a non-negative [i]: an [IndexError] past the end. *)
Definition item {A : Type} (l : list A) (i : nat) : result A :=
  match l !! i with
  | Some a => Ok a
  | None => Raise IndexError
  end.

(** [l[i] = a] for a non-negative [i]: an [IndexError] past the end. *)
Definition set_item {A : Type} (l : list A) (i : nat) (a : A) : result (list A) :=
  if (i <? length l)%nat then Ok (<[i := a]> l) else Raise IndexError.

(** [ptr < len(tag.elapsedIndexes) and tag.elapsedIndexes[ptr] == i] *)
Definition next_index_is (tag : HistoryTag) (ptr i : nat) : bool :=
  match elapsedIndexes tag !! ptr with
  | Some index => index =? Z.of_nat i
  | None => false
  end.

Section Tabulator.

(** [str(f)] for a float: the shortest decimal text that reads back as
    [f], or [inf], [-inf], [nan].  The conversion is left open. *)
Variable float_text : float -> string.

(** [str(current_value) if current_value is not None else ''] *)
Definition cell_text (current_value : value) : string :=
  match current_value with
  | Plain VNone => ""
  | Plain v => py_str v
  | VFloat f => float_text f
  end.

(** The loop [for t_idx, tag in enumerate(history.tags)] for row [i], from
    position [t_idx] on: the cells appended to the row and the work lists
    after the loop. *)
Fixpoint tag_cells (i t_idx : nat) (tags : list HistoryTag) (st : cursors)
  : result (list string * cursors) :=
  match tags with
  | [] => Ok ([], st)
  | tag :: rest =>
      ptr <- item (tag_pointers st) t_idx ;;
      step <-
        (if next_index_is tag ptr i then
           current_value <- item (values tag) ptr ;;
           last_values' <- set_item (last_values st) t_idx current_value ;;
           tag_pointers' <- set_item (tag_pointers st) t_idx (S ptr) ;;
           Ok (current_value, mkCursors last_values' tag_pointers')
         else
           current_value <- item (last_values st) t_idx ;;
           Ok (current_value, st)) ;;
      more <- tag_cells i (S t_idx) rest (snd step) ;;
      Ok (cell_text (fst step) :: fst more, snd more)
  end.

(** The column of one tag as the specification words it: a cursor into the
    tag's recorded pairs and a last-seen value; at row [i] the pair under
    the cursor is consumed when its index is [i], and the last-seen value
    is shown.  [rows] is the number of rows still to fill. *)
Fixpoint forward_fill (tag : HistoryTag) (i rows : nat) (last : value) (ptr : nat)
  : list string :=
  match rows with
  | O => []
  | S rows' =>
      if next_index_is tag ptr i then
        match values tag !! ptr with
        | Some v => cell_text v :: forward_fill tag (S i) rows' v (S ptr)
        | None => []
        end
      else cell_text last :: forward_fill tag (S i) rows' last ptr
  end.

(** The second cell of a row: [history.start] plus the elapsed
    milliseconds, rendered by [strftime] with millisecond precision and a
    [Z] suffix.  The calendar arithmetic of [datetime] raises
    [OverflowError] outside its range. *)
Variable time_cell : datetime -> Z -> result string.

(** One record as [csv.writer] writes it, terminator included. *)
Variable csv_row : list string -> string.

(** The loop [for i in range(len(history.elapsedTimes))], from row [i]
    on: the rows handed to the writer. *)
Fixpoint rows_from (history : AdaptiveHistory) (i : nat) (elapsed : list Z)
    (st : cursors) : result (list (list string)) :=
  match elapsed with
  | [] => Ok []
  | e :: rest =>
      stamp <- time_cell (start history) e ;;
      cells <- tag_cells i 0 (tags history) st ;;
      rows <- rows_from history (S i) rest (snd cells) ;;
      Ok ((str_int e :: stamp :: fst cells) :: rows)
  end.

Definition header (history : AdaptiveHistory) : list string :=
  "ElapsedTime"%string :: "Time"%string :: map name (tags history).

Definition history_rows (history : AdaptiveHistory) : result (list (list string)) :=
  rows_from history 0 (elapsedTimes history)
    (initial_cursors (length (tags history))).

Definition history_to_csv (history : AdaptiveHistory) : result string :=
  rows <- history_rows history ;;
  Ok (String.concat "" (map csv_row (header history :: rows))).

End Tabulator.

(** ** Key codec *)

(** An identifier is a scalar or a list of scalars
    ([isinstance(x, list)]). *)
Inductive ident : Type :=
| Scalar (v : pyval)
| Seq (key : list pyval).

(** [v == '' or v == 0]: the negation of the test that ends the scan of
    [to_key_string]. *)
Definition is_sentinel (v : pyval) : bool :=
  py_eq v (VStr "") || py_eq v (VInt 0).

(** The [while j != 0] loop of [to_key_string], started at [j]: the value
    of [j] when the loop ends.  [j] never exceeds [len(key)], so [key[j-1]]
    is always defined. *)
Fixpoint significant (key : list pyval) (j : nat) : nat :=
  match j with
  | O => O
  | S j' =>
      match key !! j' with
      | Some v => if is_sentinel v then significant key j' else j
      | None => j
      end
  end.

(** [key[:j]] for the [j] the scan ends with. *)
Definition truncate (key : list pyval) : list pyval :=
  take (significant key (length key)) key.

(** ['' if it == ' ' else str(it)] *)
Definition segment (it : pyval) : string :=
  if py_eq it (VStr " ") then ""%string else py_str it.

Definition to_key_string (key : list pyval) : string :=
  String.concat "@" (map segment (truncate key)).

Definition id_to_string (id_value : ident) : string :=
  match id_value with
  | Scalar VNone => ""%string
  | Seq key => to_key_string key
  | Scalar v => py_str v
  end.

(** [s.split('@')]: always at least one part. *)
Fixpoint split_at (s : string) : list string :=
  match s with
  | EmptyString => [EmptyString]
  | String c rest =>
      if Ascii.eqb c "@" then EmptyString :: split_at rest
      else
        match split_at rest with
        | part :: parts => String c part :: parts
        | [] => [String c EmptyString]
        end
  end.

(** *** [int(value)] on a string, base 10 *)

(** The characters [int] skips around a literal. *)
Definition is_space (c : ascii) : bool :=
  match c with
  | " " | "009" | "010" | "011" | "012" | "013" => true
  | _ => false
  end%char.

(** The value of a decimal digit, from its character code. *)
Definition digit_value (c : ascii) : option Z :=
  let code := Z.of_N (N_of_ascii c) in
  if (48 <=? code) && (code <=? 57) then Some (code - 48) else None.

Fixpoint lstrip (s : string) : string :=
  match s with
  | String c rest => if is_space c then lstrip rest else s
  | EmptyString => s
  end.

Fixpoint all_space (s : string) : bool :=
  match s with
  | String c rest => is_space c && all_space rest
  | EmptyString => true
  end.

(** The digits of a literal: single underscores may separate digits, and
    white space may follow the last digit.  [after_digit] tells whether the
    previous character was a digit. *)
Fixpoint int_digits (acc : Z) (after_digit : bool) (s : string) : result Z :=
  match s with
  | EmptyString => if after_digit then Ok acc else Raise ValueError
  | String c rest =>
      match digit_value c with
      | Some d => int_digits (10 * acc + d) true rest
      | None =>
          if Ascii.eqb c "_" then
            if after_digit then int_digits acc false rest else Raise ValueError
          else if is_space c && after_digit && all_space rest then Ok acc
          else Raise ValueError
      end
  end.

(** [int(value)]: optional white space, an optional sign, the digits,
    optional white space; a [ValueError] for anything else. *)
Definition py_int (value : string) : result Z :=
  match lstrip value with
  | String "+" rest => int_digits 0 false rest
  | String "-" rest => z <- int_digits 0 false rest ;; Ok (- z)
  | literal => int_digits 0 false literal
  end.

(** The loop [for index, value in enumerate(parts)] of [string_to_id],
    from position [index] on. *)
Fixpoint id_parts_from (index : nat) (parts : list string) : result (list pyval) :=
  match parts with
  | [] => Ok []
  | value :: rest =>
      part <-
        (if (index =? 0)%nat then
           Ok (VStr (if String.eqb value "" then " " else value))
         else
           z <- py_int value ;; Ok (VInt z)) ;;
      more <- id_parts_from (S index) rest ;;
      Ok (part :: more)
  end.

Definition string_to_id (s : string) : result ident :=
  let parts := split_at s in
  if (length parts =? 1)%nat then Ok (Scalar (VStr s))
  else id_parts <- id_parts_from 0 parts ;; Ok (Seq id_parts).

(** [x == y] on identifiers: a list is never equal to a scalar. *)
Definition ident_eq (x y : ident) : bool :=
  match x, y with
  | Scalar xv, Scalar yv => py_eq xv yv
  | Seq xs, Seq ys => py_list_eq xs ys
  | _, _ => false
  end.

Definition id_equals (x y : ident) : result bool :=
  if ident_eq x y then Ok true
  else
    match x, y with
    | Seq xs, Seq ys =>
        Ok ((length xs =? length ys)%nat
            && forallb (fun p => py_eq (fst p) (snd p)) (zip xs ys))
    | Seq xs, Scalar yv => x0 <- item xs 0 ;; Ok (py_eq x0 yv)
    | Scalar xv, Seq ys => y0 <- item ys 0 ;; Ok (py_eq y0 xv)
    | Scalar _, Scalar _ => Ok false
    end.

(** [s] has no separator. *)
Fixpoint no_separator (s : string) : bool :=
  match s with
  | EmptyString => true
  | String c rest => negb (Ascii.eqb c "@") && no_separator rest
  end.

(** The round trip [encode(decode(s))]. *)
Definition encode_decode (s : string) : result string :=
  id_value <- string_to_id s ;; Ok (id_to_string id_value).

(** Each entry is greater than the one before it. *)
Fixpoint increasing (l : list Z) : Prop :=
  match l with
  | [] => True
  | x :: rest =>
      match rest with
      | [] => True
      | y :: _ => x < y /\ increasing rest
      end
  end.

(** A tag as the tabulator expects it: the recorded indexes are not
    negative and strictly increasing, and each has its value. *)
Definition well_formed (tag : HistoryTag) : Prop :=
  (forall (j : nat) index, elapsedIndexes tag !! j = Some index -> 0 <= index) /\
  (forall (j1 j2 : nat) a b,
     (j1 < j2)%nat ->
     elapsedIndexes tag !! j1 = Some a ->
     elapsedIndexes tag !! j2 = Some b ->
     a < b) /\
  (length (elapsedIndexes tag) <= length (values tag))%nat.

(** ** [contrasting_color] *)

(** *** [int(value, 16)] on a string *)

(** The value of a hexadecimal digit, from its character code. *)
Definition hex_value (c : ascii) : option Z :=
  let code := Z.of_N (N_of_ascii c) in
  if (48 <=? code) && (code <=? 57) then Some (code - 48)
  else if (97 <=? code) && (code <=? 102) then Some (code - 87)
  else if (65 <=? code) && (code <=? 70) then Some (code - 55)
  else None.

(** The digits of a literal in base 16, with the rules of [int_digits]. *)
Fixpoint hex_digits (acc : Z) (after_digit : bool) (s : string) : result Z :=
  match s with
  | EmptyString => if after_digit then Ok acc else Raise ValueError
  | String c rest =>
      match hex_value c with
      | Some d => hex_digits (16 * acc + d) true rest
      | None =>
          if Ascii.eqb c "_" then
            if after_digit then hex_digits acc false rest else Raise ValueError
          else if is_space c && after_digit && all_space rest then Ok acc
          else Raise ValueError
      end
  end.

(** An optional prefix [0x] or [0X], after which one underscore is
    allowed, then the digits. *)
Definition hex_literal (s : string) : result Z :=
  match s with
  | String "0" (String x rest) =>
      if Ascii.eqb x "x" || Ascii.eqb x "X" then
        match rest with
        | String "_" rest' => hex_digits 0 false rest'
        | _ => hex_digits 0 false rest
        end
      else hex_digits 0 false s
  | _ => hex_digits 0 false s
  end.

Definition py_int16 (value : string) : result Z :=
  match lstrip value with
  | String "+" rest => hex_literal rest
  | String "-" rest => z <- hex_literal rest ;; Ok (- z)
  | literal => hex_literal literal
  end.

(** [color[1:]] *)
Definition drop_first (color : string) : string :=
  match color with
  | String _ rest => rest
  | EmptyString => EmptyString
  end.

(** The three channels as [contrasting_color] extracts them. *)
Definition channels (rgb : Z) : Z * Z * Z :=
  (Z.land rgb 0xff0000 / 65536, Z.land rgb 0xff00 / 256, Z.land rgb 0xff).

Definition contrast_of (rgb : Z) : string :=
  let '(r, g, b) := channels rgb in
  if r * 299 + g * 587 + b * 114 >? 130000 then "#000000"%string
  else "#ffffff"%string.

Definition contrasting_color (color : string) : result string :=
  if String.eqb color "#00000000" then Ok "#606060"%string
  else rgb <- py_int16 (drop_first color) ;; Ok (contrast_of rgb).

(** Colour texts, to state what [contrasting_color] does on them: a digit
    and a byte in lower-case hexadecimal. *)
Definition hex1 (d : Z) : ascii :=
  ascii_of_N (Z.to_N (if d <? 10 then 48 + d else 87 + d)).

Definition hex2 (n : Z) : string :=
  String (hex1 (n / 16)) (String (hex1 (n mod 16)) EmptyString).

(** The test of [contrasting_color] on three channels. *)
Definition bright (r g b : Z) : bool := r * 299 + g * 587 + b * 114 >? 130000.

(** ** [BaseApi]: the addresses of the requests *)

(** [s.lstrip('/')] and [s.rstrip('/')]. *)
Fixpoint lstrip_slash (s : string) : string :=
  match s with
  | String c rest => if Ascii.eqb c "/" then lstrip_slash rest else s
  | EmptyString => EmptyString
  end.

Fixpoint rstrip_slash (s : string) : string :=
  match s with
  | String c rest =>
      match rstrip_slash rest with
      | EmptyString => if Ascii.eqb c "/" then EmptyString else String c EmptyString
      | kept => String c kept
      end
  | EmptyString => EmptyString
  end.

(** Of the object only [base_url] takes part in building an address; the
    [requests] session is left out. *)
Record BaseApi := { base_url : string }.

(** [BaseApi.__init__] *)
Definition new_BaseApi (server api_type : string) : BaseApi :=
  {| base_url := (rstrip_slash server ++ "/api/v1/" ++ api_type)%string |}.

Definition _url (self : BaseApi) (path : string) : string :=
  (base_url self ++ "/" ++ lstrip_slash path)%string.

(** [ApiLive.__init__] and [ApiLive.url_command_icon] *)
Definition new_ApiLive (server : string) : BaseApi := new_BaseApi server "live".

Definition url_command_icon (self : BaseApi) (machine command : string) : string :=
  (_url self "commandIcon" ++ "?m=" ++ machine ++ "&c=" ++ command)%string.

(** [n] slashes. *)
Fixpoint slashes (n : nat) : string :=
  match n with
  | O => EmptyString
  | S n' => String "/" (slashes n')
  end.

(** ** [group_resource_events] *)

Module ResourceEvents.

Record ResourceEvent := { start : Z; stop (* [end] in the source *) : Z; resource : string }.

Section Grouping.

(** [get_name] is a callback of the caller; it is taken to be a function
    that returns. *)
Variable get_name : ResourceEvent -> string.

Definition duration (event : ResourceEvent) : Z := stop event - start event.

(** The inner [if]/[else]: the duration is added to the entry of the
    resource, or becomes it. *)
Definition add_duration (row : gmap string Z) (event : ResourceEvent)
  : gmap string Z :=
  match row !! resource event with
  | Some so_far => <[resource event := so_far + duration event]> row
  | None => <[resource event := duration event]> row
  end.

(** One pass of the loop body over the dictionary [result]. *)
Definition add_event (result : gmap string (gmap string Z))
  (event : ResourceEvent) : gmap string (gmap string Z) :=
  let name := get_name event in
  let result :=
    match result !! name with
    | None => <[name := empty]> result
    | Some _ => result
    end in
  <[name := add_duration (default empty (result !! name)) event]> result.

Definition group_from (result : gmap string (gmap string Z))
  (events : list ResourceEvent) : gmap string (gmap string Z) :=
  fold_left add_event events result.

(** [events] is [None] or a list; both [None] and the empty list are
    false. *)
Definition group_resource_events (events : option (list ResourceEvent))
  : option (gmap string (gmap string Z)) :=
  match events with
  | None | Some [] => None
  | Some events => Some (group_from empty events)
  end.

(** The events of one machine on one resource, and the sum of their
    durations. *)
Definition selects (name res : string) (event : ResourceEvent) : bool :=
  String.eqb (get_name event) name && String.eqb (resource event) res.

Definition selected (name res : string) (events : list ResourceEvent)
  : list ResourceEvent :=
  List.filter (selects name res) events.

Definition total_duration (events : list ResourceEvent) : Z :=
  fold_right Z.add 0 (map duration events).

(** What a dictionary of dictionaries holds under two keys. *)
Definition entry (result : gmap string (gmap string Z)) (name res : string)
  : option Z :=
  match result !! name with
  | Some row => row !! res
  | None => None
  end.

End Grouping.

End ResourceEvents.

(* ================================================================== *)
(** * Part II: properties                                               *)
(* ================================================================== *)

(** ** The in-place loops are their streams *)

Lemma elapsed_times_loop_stream rest :
  forall done prev prev_delta,
    elapsed_times_loop (length rest) (length done) prev prev_delta (done ++ rest)
    = done ++ elapsed_stream prev prev_delta rest.
Proof.
  induction rest as [|e rest IH]; intros done prev prev_delta; [reflexivity|].
  cbn [length elapsed_times_loop elapsed_stream].
  rewrite list_lookup_middle by reflexivity.
  rewrite insert_app_r_alt by lia. rewrite Nat.sub_diag. cbn [insert list_insert].
  rewrite (cons_middle _ done rest), (cons_middle _ done (elapsed_stream _ _ rest)).
  replace (S (length done)) with (length (done ++ [prev + (prev_delta + e)]))
    by (rewrite length_app; simpl; lia).
  rewrite !app_assoc. apply IH.
Qed.

Lemma fix_elapsed_times_stream l : fix_elapsed_times l = elapsed_stream 0 0 l.
Proof. exact (elapsed_times_loop_stream l [] 0 0). Qed.

Lemma elapsed_indexes_loop_stream rest :
  forall done prev,
    elapsed_indexes_loop (length rest) (length done) prev (done ++ rest)
    = done ++ index_stream prev rest.
Proof.
  induction rest as [|e rest IH]; intros done prev; [reflexivity|].
  cbn [length elapsed_indexes_loop index_stream].
  rewrite list_lookup_middle by reflexivity.
  rewrite insert_app_r_alt by lia. rewrite Nat.sub_diag. cbn [insert list_insert].
  rewrite (cons_middle _ done rest), (cons_middle _ done (index_stream _ rest)).
  replace (S (length done)) with (length (done ++ [prev + e]))
    by (rewrite length_app; simpl; lia).
  rewrite !app_assoc. apply IH.
Qed.

Lemma fix_elapsed_indexes_stream l : fix_elapsed_indexes l = index_stream 0 l.
Proof. exact (elapsed_indexes_loop_stream l [] 0). Qed.

Lemma number_values_loop_stream rest :
  forall done prev,
    number_values_loop (length rest) (length done) prev (done ++ rest)
    = (done ++ fst (number_stream prev rest), snd (number_stream prev rest)).
Proof.
  induction rest as [|v rest IH]; intros done prev; [reflexivity|].
  cbn [length number_values_loop number_stream].
  rewrite list_lookup_middle by reflexivity.
  destruct (py_add prev v) as [value|e]; [|reflexivity].
  rewrite insert_app_r_alt by lia. rewrite Nat.sub_diag. cbn [insert list_insert].
  rewrite (cons_middle _ done rest).
  replace (S (length done)) with (length (done ++ [number_value value]))
    by (rewrite length_app; simpl; lia).
  rewrite app_assoc, IH. destruct (number_stream value rest) as [rest' o].
  cbn [fst snd]. now rewrite <- app_assoc.
Qed.

Lemma fix_number_values_stream vs :
  fix_number_values vs = number_stream (NInt 0) vs.
Proof.
  unfold fix_number_values.
  pose proof (number_values_loop_stream vs [] (NInt 0)) as H.
  cbn [length app] in H.
  rewrite H. now destruct (number_stream (NInt 0) vs).
Qed.

(** Open the body of the tag loop and read its loops as streams. *)
Ltac fix_tag_streams :=
  unfold fix_tag;
  rewrite ?fix_elapsed_indexes_stream, ?fix_number_values_stream.

(** ** Elapsed times *)

Lemma difference_index_stream prev l :
  difference prev (index_stream prev l) = l.
Proof.
  revert prev; induction l as [|e rest IH]; intros prev; simpl; [reflexivity|].
  rewrite IH. f_equal. lia.
Qed.

Lemma difference_elapsed_stream prev prev_delta l :
  difference prev (elapsed_stream prev prev_delta l)
  = index_stream prev_delta l.
Proof.
  revert prev prev_delta; induction l as [|e rest IH]; intros prev prev_delta;
    simpl; [reflexivity|].
  rewrite IH. f_equal. lia.
Qed.

(** C1: for every list of wire integers, the second difference of the
    decoded elapsed times is the wire list itself, and the wire deltas
    [5,5,5] decode to [5,15,30]. *)
Theorem elapsed_times_second_difference :
  (forall d : list Z, second_difference (fix_elapsed_times d) = d) /\
  (forall h : AdaptiveHistory,
      second_difference (elapsedTimes (fst (_fix_history h))) = elapsedTimes h) /\
  fix_elapsed_times [5; 5; 5] = [5; 15; 30].
Proof.
  assert (Hd : forall d, second_difference (fix_elapsed_times d) = d).
  { intros d. rewrite fix_elapsed_times_stream.
    unfold second_difference, first_difference.
    rewrite difference_elapsed_stream. apply difference_index_stream. }
  split; [exact Hd|]. split; [|reflexivity].
  intros h. unfold _fix_history. destruct (fix_tags (tags h)) as [tags' o].
  cbn [fst elapsedTimes]. apply Hd.
Qed.

Lemma non_decreasing_cons2 x y l :
  non_decreasing (x :: y :: l) <-> x <= y /\ non_decreasing (y :: l).
Proof. reflexivity. Qed.

(** Monotonicity of the decoded times is a property of the values that
    [prev_delta] takes after the first iteration. *)
Lemma non_decreasing_elapsed_stream prev prev_delta e rest :
  non_decreasing (elapsed_stream prev prev_delta (e :: rest))
  <-> Forall (fun r => 0 <= r) (index_stream (prev_delta + e) rest).
Proof.
  revert prev prev_delta e; induction rest as [|e' rest IH];
    intros prev prev_delta e.
  - simpl. split; intros _; [constructor | exact I].
  - specialize (IH (prev + (prev_delta + e)) (prev_delta + e) e').
    cbn [elapsed_stream index_stream] in IH |- *.
    rewrite non_decreasing_cons2, Forall_cons, IH.
    split; intros [Hle Hrest]; (split; [lia | exact Hrest]).
Qed.

(** C3 (as stated) fails: the wire deltas [5,-10] decode to [5,0]. *)
Lemma elapsed_times_monotone_counterexample :
  fix_elapsed_times [5; -10] = [5; 0] /\
  ~ non_decreasing (fix_elapsed_times [5; -10]).
Proof.
  split; [reflexivity|]. simpl. lia.
Qed.

Lemma index_stream_nonnegative prev l :
  0 <= prev ->
  Forall (fun e => 0 <= e) l ->
  Forall (fun r => 0 <= r) (index_stream prev l).
Proof.
  intros Hprev Hall. revert prev Hprev.
  induction Hall as [|e rest He Hrest IH]; intros prev Hprev; simpl.
  - constructor.
  - constructor; [lia | apply IH; lia].
Qed.

(** C3 (amended): the decoded elapsed times are non-decreasing exactly when
    every running delta after the first (every sum d[0]+...+d[i] with
    i >= 1) is non-negative; they are so in particular when no wire delta
    is negative. *)
Theorem elapsed_times_non_decreasing_iff (d : list Z) :
  (non_decreasing (fix_elapsed_times d)
   <-> Forall (fun r => 0 <= r) (tail (running_deltas d))) /\
  (Forall (fun e => 0 <= e) d -> non_decreasing (fix_elapsed_times d)).
Proof.
  assert (Hiff : non_decreasing (fix_elapsed_times d)
                 <-> Forall (fun r => 0 <= r) (tail (running_deltas d))).
  { rewrite fix_elapsed_times_stream. destruct d as [|e rest].
    - simpl. split; intros _; [constructor | exact I].
    - rewrite non_decreasing_elapsed_stream. reflexivity. }
  split; [exact Hiff|].
  intros Hall. apply Hiff. unfold running_deltas.
  destruct Hall as [|e rest He Hrest]; simpl; [constructor|].
  apply index_stream_nonnegative; [lia | exact Hrest].
Qed.

Lemma elapsed_times_non_decreasing_iff_witness :
  non_decreasing (fix_elapsed_times [5; 5; 5]).
Proof.
  apply (proj2 (elapsed_times_non_decreasing_iff [5; 5; 5])).
  repeat constructor; vm_compute; discriminate.
Defined.

(** ** Tag streams *)

Lemma length_index_stream prev l :
  length (index_stream prev l) = length l.
Proof.
  revert prev; induction l as [|e rest IH]; intros prev; simpl; [reflexivity|].
  now rewrite IH.
Qed.

Lemma lookup_index_stream prev l (i : nat) :
  (i < length l)%nat ->
  index_stream prev l !! i = Some (prev + total (take (S i) l)).
Proof.
  revert prev i; induction l as [|e rest IH]; intros prev i Hi; simpl in Hi.
  - lia.
  - destruct i as [|i].
    + unfold total. simpl. f_equal. lia.
    + cbn [index_stream]. rewrite lookup_cons. rewrite IH by lia.
      f_equal. change (take (S (S i)) (e :: rest)) with (e :: take (S i) rest).
      unfold total. simpl. lia.
Qed.

Lemma length_number_stream prev vs :
  length (fst (number_stream prev vs)) = length vs.
Proof.
  revert prev; induction vs as [|v rest IH]; intros prev; simpl; [reflexivity|].
  destruct (py_add prev v) as [value|e]; [|reflexivity].
  specialize (IH value). destruct (number_stream value rest) as [rest' o].
  simpl in *. now rewrite IH.
Qed.

Lemma number_stream_ints prev zs :
  number_stream (NInt prev) (map int_value zs)
  = (map int_value (index_stream prev zs), None).
Proof.
  revert prev; induction zs as [|z rest IH]; intros prev; simpl; [reflexivity|].
  now rewrite IH.
Qed.

(** The conversion of an int raises nothing but [OverflowError]. *)
Lemma float_of_int_raises z e : float_of_int z = Raise e -> e = OverflowError.
Proof.
  unfold float_of_int. destruct (is_infinity _); congruence.
Qed.

(** One addition: it returns only on a number, its [TypeError] is that of
    a value that is no number, and its [OverflowError] that of an int too
    large for the float it meets. *)
Lemma py_add_outcome prev v :
  match py_add prev v with
  | Ok _ => is_number v = true
  | Raise e =>
      (e = TypeError /\ is_number v = false) \/
      (e = OverflowError /\ is_number v = true)
  end.
Proof.
  destruct prev as [p|p], v as [[|b|z|s]|f]; cbn [py_add is_number];
    try reflexivity; try (left; split; reflexivity);
    match goal with
    | |- context [float_of_int ?z] =>
        destruct (float_of_int z) as [g|e] eqn:Hg; cbn [bind];
        [reflexivity | right; split; [|reflexivity]];
        eapply float_of_int_raises; exact Hg
    end.
Qed.

(** Ints and booleans add to an int, exactly. *)
Lemma py_add_int p v :
  is_int v = true -> exists q, py_add (NInt p) v = Ok (NInt q).
Proof.
  destruct v as [[|b|z|s]|f]; cbn [is_int py_add]; try discriminate; eauto.
Qed.

(** The value loop returns only when every value is a number, and always
    when every value is an int or a boolean; it raises nothing but the
    [TypeError] and the [OverflowError] of an addition, and no
    [TypeError] when every value is a number. *)
Lemma number_stream_outcome prev vs :
  (snd (number_stream prev vs) = None ->
   Forall (fun v => is_number v = true) vs) /\
  (Forall (fun v => is_number v = true) vs ->
   snd (number_stream prev vs) = None
   \/ snd (number_stream prev vs) = Some OverflowError) /\
  (snd (number_stream prev vs) = None
   \/ snd (number_stream prev vs) = Some TypeError
   \/ snd (number_stream prev vs) = Some OverflowError).
Proof.
  revert prev; induction vs as [|v rest IH]; intros prev; cbn [number_stream].
  - split; [constructor | split; [left; reflexivity | left; reflexivity]].
  - pose proof (py_add_outcome prev v) as Hadd.
    destruct (py_add prev v) as [value|e].
    + specialize (IH value).
      destruct (number_stream value rest) as [rest' o]. cbn [snd] in *.
      destruct IH as (IH1 & IH2 & IH3). split; [|split].
      * intros Ho. constructor; [exact Hadd | now apply IH1].
      * intros Hall. inversion Hall; subst. now apply IH2.
      * exact IH3.
    + cbn [snd]. split; [discriminate|]. split.
      * intros Hall. inversion Hall as [|? ? Hv _]; subst.
        destruct Hadd as [[_ H]|[-> _]]; [congruence | now right].
      * destruct Hadd as [[-> _]|[-> _]]; [right; now left | right; now right].
Qed.

Lemma number_stream_exact vs :
  forall p, Forall (fun v => is_int v = true) vs ->
            snd (number_stream (NInt p) vs) = None.
Proof.
  induction vs as [|v rest IH]; intros p Hall; [reflexivity|].
  inversion Hall as [|? ? Hv Hrest]; subst. cbn [number_stream].
  destruct (py_add_int p v Hv) as [q ->].
  specialize (IH q Hrest). destruct (number_stream (NInt q) rest) as [rest' o].
  exact IH.
Qed.

Lemma length_alternate v k : length (alternate v k) = k.
Proof.
  revert v; induction k as [|k IH]; intros v; simpl; [reflexivity|].
  now rewrite IH.
Qed.

Lemma length_expanded_values v n : length (expanded_values v n) = Nat.max 1 n.
Proof. unfold expanded_values. simpl. rewrite length_alternate. lia. Qed.

(** Every entry of the expanded run after the first is the negation of
    the entry before it. *)
Lemma alternate_step v k (i : nat) :
  (i < k)%nat ->
  exists p, (v :: alternate v k) !! i = Some p /\
            (v :: alternate v k) !! S i = Some (py_not p).
Proof.
  revert v i; induction k as [|k IH]; intros v i Hi; [lia|].
  destruct i as [|i].
  - exists v. split; reflexivity.
  - cbn [alternate]. rewrite !(lookup_cons_ne_0 _ _ _) by lia. simpl.
    apply IH. lia.
Qed.

Lemma boolean_kind_not_number_kind tag :
  is_boolean_kind tag = true -> is_number_kind tag = false.
Proof.
  unfold is_boolean_kind, is_number_kind, type_is.
  destruct (type tag) as [s|d]; [|reflexivity].
  intros H. apply String.eqb_eq in H. subst s. reflexivity.
Qed.

(** C2 (as stated) fails for a tag with no recorded index: the decoded
    values still hold the initial value, so their length is 1, not 0. *)
Lemma boolean_values_length_counterexample :
  let tag := mkHistoryTag "door" (TypeName "boolean") [] [Plain (VBool true)] in
  is_boolean_kind tag = true /\
  length (elapsedIndexes (fst (fix_tag tag))) = 0%nat /\
  values (fst (fix_tag tag)) = [Plain (VBool true)] /\
  length (values (fst (fix_tag tag))) <> length (elapsedIndexes (fst (fix_tag tag))).
Proof.
  cbv zeta. repeat split. vm_compute. discriminate.
Qed.

(** C2 (amended): for a boolean tag with at least one recorded index and a
    non-empty wire values list starting with [v0], the decoded values have
    exactly one entry per recorded index, start with [v0], every later
    entry is the negation of the one before it, and the wire entries after
    the first play no part. *)
Theorem boolean_values_alternate (tag : HistoryTag) (v0 : value) (more : list value) :
  is_boolean_kind tag = true ->
  values tag = v0 :: more ->
  (1 <= length (elapsedIndexes tag))%nat ->
  let tag' := fst (fix_tag tag) in
  let N := length (elapsedIndexes tag') in
  snd (fix_tag tag) = None /\
  N = length (elapsedIndexes tag) /\
  length (values tag') = N /\
  values tag' !! 0%nat = Some v0 /\
  (forall i : nat, (1 <= i < N)%nat ->
     exists p, values tag' !! (i - 1)%nat = Some p /\
               values tag' !! i = Some (py_not p)) /\
  values tag'
  = values (fst (fix_tag (mkHistoryTag (name tag) (type tag)
                            (elapsedIndexes tag) [v0]))).
Proof.
  intros Hbool Hvalues Hlen.
  pose proof (boolean_kind_not_number_kind tag Hbool) as Hnum.
  unfold is_boolean_kind, is_number_kind in *.
  fix_tag_streams. cbn [name type elapsedIndexes values].
  rewrite Hnum, Hbool, Hvalues. cbn [fst snd elapsedIndexes values].
  rewrite length_index_stream.
  repeat split.
  - rewrite length_expanded_values. lia.
  - intros i Hi. unfold expanded_values.
    destruct i as [|i]; [lia|].
    replace (S i - 1)%nat with i by lia.
    apply alternate_step. lia.
Qed.

Lemma boolean_values_alternate_witness :
  let tag := mkHistoryTag "door" (TypeName "boolean") [2; 3; 1]
               (map Plain [VBool false; VBool false]) in
  values (fst (fix_tag tag)) = map Plain [VBool false; VBool true; VBool false].
Proof.
  cbv zeta.
  pose proof (boolean_values_alternate
                (mkHistoryTag "door" (TypeName "boolean") [2; 3; 1]
                   (map Plain [VBool false; VBool false]))
                (Plain (VBool false)) [Plain (VBool false)]
                eq_refl eq_refl) as H.
  cbv zeta in H.
  assert (Hlen : (1 <= length [2; 3; 1])%nat) by (simpl; lia).
  destruct (H Hlen) as (_ & _ & _ & _ & _ & Hsame).
  rewrite Hsame. reflexivity.
Defined.

(** C8 (as stated) fails on floats: each sum is rounded to a double, and
    the difference of two decoded values is not the wire value.  The wire
    values 0.1, 0.2, 0.3 decode to 0.1, 0.30000000000000004 and
    0.6000000000000001, and 0.30000000000000004 - 0.1 is not 0.2. *)
Lemma number_values_float_counterexample :
  let tag := mkHistoryTag "temp" (TypeName "number") [0; 1; 1]
               [VFloat 0x1.999999999999ap-4; VFloat 0x1.999999999999ap-3;
                VFloat 0x1.3333333333333p-2] in
  is_number_kind tag = true /\
  snd (fix_tag tag) = None /\
  values (fst (fix_tag tag))
  = [VFloat 0x1.999999999999ap-4; VFloat 0x1.3333333333334p-2;
     VFloat 0x1.3333333333334p-1] /\
  PrimFloat.eqb (PrimFloat.sub 0x1.3333333333334p-2 0x1.999999999999ap-4)
                0x1.999999999999ap-3 = false.
Proof.
  cbv zeta. repeat split; vm_compute; reflexivity.
Qed.

(** C8 (amended): for a tag of number or date kind whose wire values are
    ints, the decode completes, entry [i] of the decoded values is the sum
    of the wire values up to [i], and the first difference of the decoded
    values is the wire list. *)
Theorem number_values_cumulative_sum (tag : HistoryTag) (wire : list Z) :
  is_number_kind tag = true ->
  values tag = map int_value wire ->
  exists decoded : list Z,
    snd (fix_tag tag) = None /\
    values (fst (fix_tag tag)) = map int_value decoded /\
    length decoded = length wire /\
    (forall i : nat, (i < length wire)%nat ->
       decoded !! i = Some (total (take (S i) wire))) /\
    first_difference decoded = wire.
Proof.
  intros Hkind Hvalues.
  exists (index_stream 0 wire).
  unfold is_number_kind in Hkind. fix_tag_streams.
  rewrite Hkind, Hvalues, number_stream_ints. cbn [fst snd values].
  repeat split.
  - apply length_index_stream.
  - intros i Hi. rewrite lookup_index_stream by exact Hi.
    f_equal; lia.
  - apply difference_index_stream.
Qed.

Lemma number_values_cumulative_sum_witness :
  exists decoded : list Z,
    values (fst (fix_tag (mkHistoryTag "temp" (TypeName "number") [0; 1; 1]
                            (map int_value [20; 3; -5]))))
    = map int_value decoded /\
    first_difference decoded = [20; 3; -5].
Proof.
  destruct (number_values_cumulative_sum
              (mkHistoryTag "temp" (TypeName "number") [0; 1; 1]
                 (map int_value [20; 3; -5]))
              [20; 3; -5] eq_refl eq_refl)
    as (decoded & _ & Hvals & _ & _ & Hdiff).
  exists decoded. split; [exact Hvals | exact Hdiff].
Defined.

(** ** Whole histories *)

(** The decoder keeps the number of recorded indexes of every tag, and the
    number of values of every tag that is not a boolean tag with a
    non-empty values list. *)
Lemma fix_tag_lengths tag :
  length (elapsedIndexes (fst (fix_tag tag))) = length (elapsedIndexes tag) /\
  (is_boolean_kind tag = false \/ values tag = [] ->
   length (values (fst (fix_tag tag))) = length (values tag)).
Proof.
  unfold is_boolean_kind. fix_tag_streams.
  destruct (type_is (type tag) "number" || type_is (type tag) "date") eqn:Hnum.
  - pose proof (length_number_stream (NInt 0) (values tag)) as Hlen.
    destruct (number_stream (NInt 0) (values tag)) as [values' o].
    cbn [fst elapsedIndexes values] in *.
    rewrite length_index_stream. split; [reflexivity | intros _; exact Hlen].
  - destruct (type_is (type tag) "boolean") eqn:Hbool.
    + destruct (values tag) as [|last_value more] eqn:Hvalues;
        cbn [fst elapsedIndexes values];
        rewrite length_index_stream; (split; [reflexivity|]).
      * reflexivity.
      * intros [H|H]; discriminate.
    + cbn [fst elapsedIndexes values].
      rewrite length_index_stream. split; reflexivity.
Qed.

(** After the body of the tag loop a tag has one value per recorded index
    exactly when it arrived so, or is a boolean tag that arrived with a
    value and a recorded index. *)
Lemma fix_tag_arity tag :
  arity_ok (fst (fix_tag tag)) <->
  arity_ok tag \/
  (is_boolean_kind tag = true /\ values tag <> [] /\ elapsedIndexes tag <> []).
Proof.
  unfold arity_ok.
  destruct (fix_tag_lengths tag) as [Hidx Hval]. rewrite Hidx.
  destruct (is_boolean_kind tag) eqn:Hbool.
  - destruct (values tag) as [|v0 more] eqn:Hvalues.
    + rewrite Hval by (right; reflexivity). split; [now left|].
      intros [H|(_ & H & _)]; [exact H | congruence].
    + clear Hval.
      pose proof (boolean_kind_not_number_kind tag Hbool) as Hnum.
      unfold is_boolean_kind, is_number_kind in *.
      fix_tag_streams. rewrite Hnum, Hbool, Hvalues. cbn [fst values].
      rewrite length_expanded_values, length_index_stream.
      destruct (elapsedIndexes tag) as [|e rest]; cbn [length]; split.
      * lia.
      * intros [H|(_ & _ & H)]; [discriminate | congruence].
      * intros _. right. repeat split; discriminate.
      * lia.
  - rewrite Hval by (left; reflexivity). split; [now left|].
    intros [H|(H & _)]; [exact H | discriminate].
Qed.

(** When the tag loop completes, every tag has gone through its body. *)
Lemma fix_tags_complete l :
  forall l', fix_tags l = (l', None) -> l' = map (fun tag => fst (fix_tag tag)) l.
Proof.
  induction l as [|tag rest IH]; intros l'; cbn [fix_tags map].
  - congruence.
  - destruct (fix_tag tag) as [tag' [e|]]; [discriminate|].
    destruct (fix_tags rest) as [rest' o] eqn:Hrest.
    intros H. inversion H; subst. cbn [fst]. f_equal. now apply IH.
Qed.

(** C5 (as stated) fails: a number tag sent with one value for two
    recorded indexes is decoded without complaint and keeps one value. *)
Lemma history_arity_counterexample :
  let h := mkAdaptiveHistory "job" 0 0 [0; 10]
             [mkHistoryTag "temp" (TypeName "number") [0; 1] [int_value 5]] in
  snd (_fix_history h) = None /\
  ~ Forall arity_ok (tags (fst (_fix_history h))).
Proof.
  cbv zeta. split; [reflexivity|].
  intros H. inversion H as [|tag rest Harity _]. subst.
  unfold arity_ok in Harity. simpl in Harity. discriminate.
Qed.

(** C5 (amended): when the decode completes, the tags with one value per
    recorded index are exactly those that arrived with one value per
    recorded index, and the boolean tags that arrived with a non-empty
    values list and at least one recorded index; this holds tag by tag,
    whatever the other tags of the history are. *)
Theorem history_arity_after_decode (h : AdaptiveHistory) (k : nat)
    (tag : HistoryTag) :
  snd (_fix_history h) = None ->
  tags h !! k = Some tag ->
  exists tag',
    tags (fst (_fix_history h)) !! k = Some tag' /\
    (arity_ok tag' <->
     arity_ok tag \/
     (is_boolean_kind tag = true /\ values tag <> [] /\
      elapsedIndexes tag <> [])).
Proof.
  unfold _fix_history.
  destruct (fix_tags (tags h)) as [tags' o] eqn:Htags.
  cbn [fst snd tags]. intros -> Hk.
  apply fix_tags_complete in Htags. subst tags'.
  exists (fst (fix_tag tag)). split.
  - rewrite list_lookup_fmap, Hk. reflexivity.
  - apply fix_tag_arity.
Qed.

Lemma history_arity_after_decode_witness :
  exists tag',
    tags (fst (_fix_history
       (mkAdaptiveHistory "job" 0 0 [0; 10; 0]
          [mkHistoryTag "temp" (TypeName "number") [0; 1] [int_value 5];
           mkHistoryTag "door" (TypeName "boolean") [0; 1; 1]
             [Plain (VBool true)]]))) !! 1%nat = Some tag' /\
    arity_ok tag'.
Proof.
  destruct (history_arity_after_decode
              (mkAdaptiveHistory "job" 0 0 [0; 10; 0]
                 [mkHistoryTag "temp" (TypeName "number") [0; 1] [int_value 5];
                  mkHistoryTag "door" (TypeName "boolean") [0; 1; 1]
                    [Plain (VBool true)]])
              1%nat
              (mkHistoryTag "door" (TypeName "boolean") [0; 1; 1]
                 [Plain (VBool true)])
              eq_refl eq_refl)
    as (tag' & Hk & Harity).
  exists tag'. split; [exact Hk|].
  apply Harity. right. repeat split; discriminate.
Defined.

(** The body of the tag loop returns only when a number or date tag holds
    only numbers, and always when it holds only ints and booleans; it
    raises nothing but the [TypeError] and the [OverflowError] of an
    addition, and no [TypeError] when the tag holds only numbers. *)
Lemma fix_tag_outcome tag :
  (snd (fix_tag tag) = None -> numbers_where_expected tag) /\
  (ints_where_expected tag -> snd (fix_tag tag) = None) /\
  (numbers_where_expected tag ->
   snd (fix_tag tag) = None \/ snd (fix_tag tag) = Some OverflowError) /\
  (snd (fix_tag tag) = None
   \/ snd (fix_tag tag) = Some TypeError
   \/ snd (fix_tag tag) = Some OverflowError).
Proof.
  unfold numbers_where_expected, ints_where_expected, is_number_kind.
  fix_tag_streams.
  destruct (type_is (type tag) "number" || type_is (type tag) "date").
  - pose proof (number_stream_outcome (NInt 0) (values tag)) as (H1 & H2 & H3).
    pose proof (number_stream_exact (values tag) 0) as H4.
    destruct (number_stream (NInt 0) (values tag)) as [values' o].
    cbn [snd] in *. repeat split; auto.
  - destruct (type_is (type tag) "boolean"); [destruct (values tag)|];
      cbn [snd]; repeat split; auto; discriminate.
Qed.

Lemma fix_tags_outcome l :
  (snd (fix_tags l) = None -> Forall numbers_where_expected l) /\
  (Forall ints_where_expected l -> snd (fix_tags l) = None) /\
  (Forall numbers_where_expected l ->
   snd (fix_tags l) = None \/ snd (fix_tags l) = Some OverflowError) /\
  (snd (fix_tags l) = None
   \/ snd (fix_tags l) = Some TypeError
   \/ snd (fix_tags l) = Some OverflowError).
Proof.
  induction l as [|tag rest (IH1 & IH2 & IH3 & IH4)]; cbn [fix_tags].
  - repeat split; auto.
  - pose proof (fix_tag_outcome tag) as (H1 & H2 & H3 & H4).
    destruct (fix_tag tag) as [tag' [e|]]; cbn [snd] in *.
    + split; [discriminate|]. split; [|split; [|exact H4]].
      * intros Hall. inversion Hall; subst. auto.
      * intros Hall. inversion Hall; subst. auto.
    + destruct (fix_tags rest) as [rest' o]. cbn [snd] in *.
      split; [|split; [|split; [|exact IH4]]].
      * intros Ho. constructor; auto.
      * intros Hall. inversion Hall; subst. auto.
      * intros Hall. inversion Hall; subst. auto.
Qed.

(** ** Tabulation *)

Section TabulationFacts.

Variable float_text : float -> string.

Lemma item_Ok {A : Type} (l : list A) (i : nat) (a : A) :
  item l i = Ok a <-> l !! i = Some a.
Proof.
  unfold item. destruct (l !! i); split; intros H; congruence.
Qed.

Lemma set_item_Ok {A : Type} (l l' : list A) (i : nat) (a : A) :
  set_item l i a = Ok l' -> (i < length l)%nat /\ l' = <[i := a]> l.
Proof.
  unfold set_item. destruct (i <? length l)%nat eqn:Hlt; [|discriminate].
  apply Nat.ltb_lt in Hlt. intros H. split; [exact Hlt | congruence].
Qed.

(** Inversion of one iteration of the tag loop. *)
Lemma tag_cells_cons_Ok i t_idx tag rest st cells st' :
  tag_cells float_text i t_idx (tag :: rest) st = Ok (cells, st') ->
  exists ptr current_value st1 cells1,
    tag_pointers st !! t_idx = Some ptr /\
    (if next_index_is tag ptr i then
       values tag !! ptr = Some current_value /\
       (t_idx < length (last_values st))%nat /\
       st1 = mkCursors (<[t_idx := current_value]> (last_values st))
                       (<[t_idx := S ptr]> (tag_pointers st))
     else
       last_values st !! t_idx = Some current_value /\ st1 = st) /\
    tag_cells float_text i (S t_idx) rest st1 = Ok (cells1, st') /\
    cells = cell_text float_text current_value :: cells1.
Proof.
  cbn [tag_cells]. unfold bind at 1.
  destruct (item (tag_pointers st) t_idx) as [ptr|e] eqn:Hptr; [|discriminate].
  apply item_Ok in Hptr.
  destruct (next_index_is tag ptr i) eqn:Hnext.
  - destruct (item (values tag) ptr) as [current_value|e] eqn:Hval;
      [|discriminate].
    apply item_Ok in Hval. cbn [bind].
    destruct (set_item (last_values st) t_idx current_value) as [lv|e] eqn:Hlv;
      [|discriminate].
    destruct (set_item (tag_pointers st) t_idx (S ptr)) as [tp|e] eqn:Htp;
      [|discriminate].
    apply set_item_Ok in Hlv, Htp. destruct Hlv as [Hlt ->], Htp as [_ ->].
    cbn [bind fst snd].
    destruct (tag_cells float_text i (S t_idx) rest _) as [[cells1 st1']|e] eqn:Hrec;
      [|discriminate].
    cbn [bind fst snd]. intros H. inversion H; subst.
    exists ptr, current_value. eexists. exists cells1. rewrite Hnext.
    repeat split; try eassumption.
  - destruct (item (last_values st) t_idx) as [current_value|e] eqn:Hval;
      [|discriminate].
    apply item_Ok in Hval. cbn [bind fst snd].
    destruct (tag_cells float_text i (S t_idx) rest st) as [[cells1 st1']|e] eqn:Hrec;
      [|discriminate].
    cbn [bind fst snd]. intros H. inversion H; subst.
    exists ptr, current_value, st, cells1. rewrite Hnext.
    repeat split; assumption.
Qed.

(** What one pass of the tag loop does to the slot of each tag: the slots
    of the tags before [t_idx] are not touched, and the tag at position
    [t_idx + k] either consumes the pair under its cursor or carries its
    last value over. *)
Lemma tag_cells_slots i rest :
  forall t_idx st cells st',
    tag_cells float_text i t_idx rest st = Ok (cells, st') ->
    (forall j : nat, (j < t_idx)%nat ->
       last_values st' !! j = last_values st !! j /\
       tag_pointers st' !! j = tag_pointers st !! j) /\
    (forall (k : nat) tag ptr last,
       rest !! k = Some tag ->
       tag_pointers st !! (t_idx + k)%nat = Some ptr ->
       last_values st !! (t_idx + k)%nat = Some last ->
       if next_index_is tag ptr i then
         exists v, values tag !! ptr = Some v /\
                   cells !! k = Some (cell_text float_text v) /\
                   last_values st' !! (t_idx + k)%nat = Some v /\
                   tag_pointers st' !! (t_idx + k)%nat = Some (S ptr)
       else
         cells !! k = Some (cell_text float_text last) /\
         last_values st' !! (t_idx + k)%nat = Some last /\
         tag_pointers st' !! (t_idx + k)%nat = Some ptr).
Proof.
  induction rest as [|tag0 rest IH]; intros t_idx st cells st' Hrun.
  - simpl in Hrun. inversion Hrun; subst. split; [auto|].
    intros k tag ptr last Hk. rewrite lookup_nil in Hk. discriminate.
  - apply tag_cells_cons_Ok in Hrun.
    destruct Hrun as (ptr0 & cv & st1 & cells1 & Hptr0 & Hstep & Hrec & ->).
    destruct (IH _ _ _ _ Hrec) as [Hbefore Hslots]. clear IH.
    assert (Hother : forall j : nat, j <> t_idx ->
               last_values st1 !! j = last_values st !! j /\
               tag_pointers st1 !! j = tag_pointers st !! j).
    { intros j Hj. destruct (next_index_is tag0 ptr0 i).
      - destruct Hstep as (_ & _ & ->). cbn [last_values tag_pointers].
        split; apply list_lookup_insert_ne; congruence.
      - destruct Hstep as (_ & ->). split; reflexivity. }
    split.
    + intros j Hj. destruct (Hbefore j ltac:(lia)) as [H1 H2].
      destruct (Hother j ltac:(lia)) as [H3 H4]. split; congruence.
    + intros k tag ptr last Hk Hptr Hlast. destruct k as [|k].
      * rewrite Nat.add_0_r in *. simpl in Hk. inversion Hk; subst tag0.
        assert (ptr0 = ptr) by congruence. subst ptr0.
        destruct (Hbefore t_idx ltac:(lia)) as [H1 H2]. rewrite H1, H2.
        destruct (next_index_is tag ptr i).
        -- destruct Hstep as (Hv & Hlt & ->). cbn [last_values tag_pointers].
           exists cv. repeat split; [exact Hv | |].
           ++ apply list_lookup_insert_eq. exact Hlt.
           ++ apply list_lookup_insert_eq. eapply lookup_lt_Some. exact Hptr.
        -- destruct Hstep as (Hv & ->).
           assert (cv = last) by congruence. subst cv.
           repeat split; assumption.
      * simpl in Hk.
        destruct (Hother (t_idx + S k)%nat ltac:(lia)) as [H3 H4].
        replace (t_idx + S k)%nat with (S t_idx + k)%nat in * by lia.
        apply (Hslots k tag ptr last Hk); congruence.
Qed.

Lemma tag_cells_lengths i rest :
  forall t_idx st cells st',
    tag_cells float_text i t_idx rest st = Ok (cells, st') ->
    length cells = length rest /\
    length (last_values st') = length (last_values st) /\
    length (tag_pointers st') = length (tag_pointers st).
Proof.
  induction rest as [|tag0 rest IH]; intros t_idx st cells st' Hrun.
  - simpl in Hrun. inversion Hrun; subst. repeat split.
  - apply tag_cells_cons_Ok in Hrun.
    destruct Hrun as (ptr0 & cv & st1 & cells1 & _ & Hstep & Hrec & ->).
    destruct (IH _ _ _ _ Hrec) as (Hc & Hl & Hp).
    assert (Hst1 : length (last_values st1) = length (last_values st) /\
                   length (tag_pointers st1) = length (tag_pointers st)).
    { destruct (next_index_is tag0 ptr0 i).
      - destruct Hstep as (_ & _ & ->). cbn [last_values tag_pointers].
        rewrite !length_insert. split; reflexivity.
      - destruct Hstep as (_ & ->). split; reflexivity. }
    destruct Hst1 as [Hl1 Hp1]. simpl. repeat split; congruence.
Qed.

(** The tag loop returns whenever the work lists have a slot for every tag
    and no tag has more recorded indexes than values. *)
Lemma tag_cells_total i rest :
  forall t_idx st,
    (t_idx + length rest <= length (last_values st))%nat ->
    (t_idx + length rest <= length (tag_pointers st))%nat ->
    Forall (fun tag => (length (elapsedIndexes tag) <= length (values tag))%nat) rest ->
    exists cells st', tag_cells float_text i t_idx rest st = Ok (cells, st').
Proof.
  induction rest as [|tag rest IH]; intros t_idx st Hl Hp Hall.
  - simpl. eauto.
  - simpl in Hl, Hp. inversion Hall as [|? ? Htag Hrest]; subst.
    destruct (lookup_lt_is_Some_2 (tag_pointers st) t_idx ltac:(lia)) as [ptr Hptr].
    destruct (lookup_lt_is_Some_2 (last_values st) t_idx ltac:(lia)) as [last Hlast].
    cbn [tag_cells]. unfold item at 1. rewrite Hptr. cbn [bind].
    destruct (next_index_is tag ptr i) eqn:Hnext.
    + unfold next_index_is in Hnext.
      destruct (elapsedIndexes tag !! ptr) as [index|] eqn:Hindex; [|discriminate].
      apply lookup_lt_Some in Hindex.
      destruct (lookup_lt_is_Some_2 (values tag) ptr ltac:(lia)) as [v Hv].
      unfold item, set_item. rewrite Hv. cbn [bind].
      destruct (Nat.ltb_spec t_idx (length (last_values st))); [|lia].
      destruct (Nat.ltb_spec t_idx (length (tag_pointers st))); [|lia].
      cbn [bind fst snd].
      destruct (IH (S t_idx)
                  (mkCursors (<[t_idx := v]> (last_values st))
                             (<[t_idx := S ptr]> (tag_pointers st))))
        as (cells & st' & Hrec); [| |exact Hrest|].
      * cbn [last_values]. rewrite length_insert. lia.
      * cbn [tag_pointers]. rewrite length_insert. lia.
      * rewrite Hrec. cbn [bind fst snd]. eauto.
    + unfold item. rewrite Hlast. cbn [bind fst snd].
      destruct (IH (S t_idx) st) as (cells & st' & Hrec);
        [lia | lia | exact Hrest |].
      rewrite Hrec. cbn [bind fst snd]. eauto.
Qed.

(** The tag loop raises nothing but [IndexError]. *)
Lemma tag_cells_raises i rest :
  forall t_idx st e, tag_cells float_text i t_idx rest st = Raise e -> e = IndexError.
Proof.
  induction rest as [|tag rest IH]; intros t_idx st e; [discriminate|].
  cbn [tag_cells]. unfold item, set_item.
  destruct (tag_pointers st !! t_idx) as [ptr|]; cbn [bind]; [|congruence].
  destruct (next_index_is tag ptr i).
  - destruct (values tag !! ptr) as [v|]; cbn [bind]; [|congruence].
    destruct (t_idx <? length (last_values st))%nat; cbn [bind]; [|congruence].
    destruct (t_idx <? length (tag_pointers st))%nat; cbn [bind fst snd];
      [|congruence].
    destruct (tag_cells float_text i (S t_idx) rest _) as [more|e'] eqn:Hrec;
      cbn [bind]; [discriminate|].
    intros H. inversion H; subst. eapply IH. exact Hrec.
  - destruct (last_values st !! t_idx) as [v|]; cbn [bind fst snd]; [|congruence].
    destruct (tag_cells float_text i (S t_idx) rest st) as [more|e'] eqn:Hrec;
      cbn [bind]; [discriminate|].
    intros H. inversion H; subst. eapply IH. exact Hrec.
Qed.

(** The rows of the table, column by column: the column of each tag is the
    forward fill of that tag alone. *)
Lemma rows_from_columns time_cell h elapsed :
  forall i st rows,
    rows_from float_text time_cell h i elapsed st = Ok rows ->
    length rows = length elapsed /\
    forall (k : nat) tag ptr last,
      tags h !! k = Some tag ->
      tag_pointers st !! k = Some ptr ->
      last_values st !! k = Some last ->
      map (fun row : list string => row !! (2 + k)%nat) rows
      = map Some (forward_fill float_text tag i (length elapsed) last ptr).
Proof.
  induction elapsed as [|t rest IH]; intros i st rows Hrows.
  - simpl in Hrows. inversion Hrows; subst. split; [reflexivity|]. reflexivity.
  - cbn [rows_from] in Hrows.
    destruct (time_cell (start h) t) as [stamp|e]; [|discriminate].
    cbn [bind] in Hrows.
    destruct (tag_cells float_text i 0 (tags h) st) as [[cells st1]|e] eqn:Hcells;
      [|discriminate].
    cbn [bind fst snd] in Hrows.
    destruct (rows_from float_text time_cell h (S i) rest st1) as [rows1|e] eqn:Hrest;
      [|discriminate].
    cbn [bind] in Hrows. inversion Hrows; subst rows. clear Hrows.
    destruct (IH _ _ _ Hrest) as [Hlen Hcols].
    split; [simpl; now rewrite Hlen|].
    intros k tag ptr last Hk Hptr Hlast.
    destruct (tag_cells_slots i (tags h) 0%nat st cells st1 Hcells) as [_ Hslots].
    specialize (Hslots k tag ptr last Hk Hptr Hlast). cbn [Nat.add] in Hslots.
    cbn [length forward_fill map].
    change ((str_int t :: stamp :: cells) !! (2 + k)%nat) with (cells !! k).
    destruct (next_index_is tag ptr i).
    + destruct Hslots as (v & Hv & Hcell & Hlast1 & Hptr1).
      rewrite Hv, Hcell. cbn [map]. f_equal.
      exact (Hcols k tag (S ptr) v Hk Hptr1 Hlast1).
    + destruct Hslots as (Hcell & Hlast1 & Hptr1).
      rewrite Hcell. cbn [map]. f_equal.
      exact (Hcols k tag ptr last Hk Hptr1 Hlast1).
Qed.

(** The row loop returns whenever the time stamps of the rows can be
    rendered, the work lists have a slot for every tag and no tag has more
    recorded indexes than values. *)
Lemma rows_from_total time_cell h elapsed :
  (forall t, In t elapsed -> exists stamp, time_cell (start h) t = Ok stamp) ->
  Forall (fun tag => (length (elapsedIndexes tag) <= length (values tag))%nat)
         (tags h) ->
  forall i st,
    (length (tags h) <= length (last_values st))%nat ->
    (length (tags h) <= length (tag_pointers st))%nat ->
    exists rows, rows_from float_text time_cell h i elapsed st = Ok rows.
Proof.
  intros Htime Htags.
  induction elapsed as [|t rest IH]; intros i st Hl Hp.
  - simpl. eauto.
  - cbn [rows_from]. destruct (Htime t (or_introl eq_refl)) as [stamp ->].
    cbn [bind].
    destruct (tag_cells_total i (tags h) 0%nat st) as (cells & st1 & Hcells);
      [simpl; lia | simpl; lia | exact Htags |].
    rewrite Hcells. cbn [bind fst snd].
    destruct (tag_cells_lengths _ _ _ _ _ _ Hcells) as (_ & Hl1 & Hp1).
    destruct (IH (fun t' Ht' => Htime t' (or_intror Ht')) (S i) st1)
      as [rows Hrows]; [lia | lia |].
    rewrite Hrows. cbn [bind]. eauto.
Qed.

Lemma initial_cursors_lookup num_tags (k : nat) :
  (k < num_tags)%nat ->
  tag_pointers (initial_cursors num_tags) !! k = Some 0%nat /\
  last_values (initial_cursors num_tags) !! k = Some (Plain VNone).
Proof.
  intros Hk. unfold initial_cursors. cbn [tag_pointers last_values].
  split; apply lookup_replicate_2; exact Hk.
Qed.

(** C7: the history with elapsed times [0,10,20] and one number tag
    recorded at index 1 with value 5 is tabulated with the tag column
    "", "5", "5".  In every pass of the tag loop for a row [i], a tag whose
    next recorded index is [i] shows the value under its cursor, keeps it
    as its last value and advances its cursor, while any other tag shows
    its last value (the empty text while it has none) and keeps its cursor.
    So the column of each tag in the table is the forward fill of that tag
    alone, one cell per elapsed time. *)
Theorem tabulation_forward_fill :
  (forall (time_cell : datetime -> Z -> result string) (stamp : Z -> string),
     (forall e, time_cell 0 e = Ok (stamp e)) ->
     history_rows float_text time_cell
       (mkAdaptiveHistory "job" 0 0 [0; 10; 20]
          [mkHistoryTag "temp" (TypeName "number") [1] [int_value 5]])
     = Ok [ ["0"; stamp 0; ""];
            ["10"; stamp 10; "5"];
            ["20"; stamp 20; "5"] ]%string) /\
  cell_text float_text (Plain VNone) = ""%string /\
  (forall (i : nat) (tags : list HistoryTag) (st st' : cursors)
          (cells : list string),
     tag_cells float_text i 0 tags st = Ok (cells, st') ->
     forall (k : nat) tag ptr last,
       tags !! k = Some tag ->
       tag_pointers st !! k = Some ptr ->
       last_values st !! k = Some last ->
       if next_index_is tag ptr i then
         exists v, values tag !! ptr = Some v /\
                   cells !! k = Some (cell_text float_text v) /\
                   last_values st' !! k = Some v /\
                   tag_pointers st' !! k = Some (S ptr)
       else
         cells !! k = Some (cell_text float_text last) /\
         last_values st' !! k = Some last /\
         tag_pointers st' !! k = Some ptr) /\
  (forall (time_cell : datetime -> Z -> result string) (h : AdaptiveHistory)
          (rows : list (list string)),
     history_rows float_text time_cell h = Ok rows ->
     length rows = length (elapsedTimes h) /\
     forall (k : nat) tag,
       tags h !! k = Some tag ->
       map (fun row : list string => row !! (2 + k)%nat) rows
       = map Some (forward_fill float_text tag 0 (length (elapsedTimes h))
                     (Plain VNone) 0)).
Proof.
  split; [|split; [reflexivity|split]].
  - intros time_cell stamp Hstamp. unfold history_rows.
    cbn [elapsedTimes tags start rows_from length].
    rewrite !Hstamp. reflexivity.
  - intros i tags st st' cells Hrun k tag ptr last Hk Hptr Hlast.
    destruct (tag_cells_slots i tags 0%nat st cells st' Hrun) as [_ Hslots].
    exact (Hslots k tag ptr last Hk Hptr Hlast).
  - intros time_cell h rows Hrows. unfold history_rows in Hrows.
    destruct (rows_from_columns _ _ _ _ _ _ Hrows) as [Hlen Hcols].
    split; [exact Hlen|].
    intros k tag Hk.
    destruct (initial_cursors_lookup (length (tags h)) k) as [Hptr Hlast].
    { eapply lookup_lt_Some. exact Hk. }
    exact (Hcols k tag 0%nat (Plain VNone) Hk Hptr Hlast).
Qed.

(** A failure of the row loop is an [IndexError] of the tag loop or
    whatever the rendering of the time stamp of a row raised. *)
Lemma rows_from_raises time_cell h elapsed :
  forall i st e,
    rows_from float_text time_cell h i elapsed st = Raise e ->
    e = IndexError \/ exists t, In t elapsed /\ time_cell (start h) t = Raise e.
Proof.
  induction elapsed as [|t rest IH]; intros i st e; [discriminate|].
  cbn [rows_from].
  destruct (time_cell (start h) t) as [stamp|e'] eqn:Hstamp; cbn [bind].
  - destruct (tag_cells float_text i 0 (tags h) st) as [cells|e'] eqn:Hcells;
      cbn [bind].
    + destruct (rows_from float_text time_cell h (S i) rest (snd cells))
        as [rows|e'] eqn:Hrows; cbn [bind]; [discriminate|].
      intros H. inversion H; subst.
      destruct (IH _ _ _ Hrows) as [He|(t' & Hin & Ht')]; [now left|].
      right. exists t'. split; [now right | exact Ht'].
    + intros H. inversion H; subst. left. eapply tag_cells_raises. exact Hcells.
  - intros H. inversion H; subst. right. exists t. split; [now left | exact Hstamp].
Qed.

(** C6 (amended): the decoder checks neither the arity of a tag nor the
    range of its indexes.  It completes only when every number or date tag
    holds only numbers, and always when every such tag holds only ints and
    booleans; the only exceptions it raises are the [TypeError] and the
    [OverflowError] of a failed addition, and with only numbers in those
    tags nothing but the [OverflowError].  The tabulator returns its rows
    whenever the time stamps of the elapsed times of the history can be
    rendered and no tag has more recorded indexes than values, whatever the
    indexes are, and raises nothing of its own but an [IndexError]. *)
Theorem decoder_performs_no_validation :
  (forall h : AdaptiveHistory,
     (snd (_fix_history h) = None -> Forall numbers_where_expected (tags h)) /\
     (Forall ints_where_expected (tags h) -> snd (_fix_history h) = None) /\
     (Forall numbers_where_expected (tags h) ->
      snd (_fix_history h) = None
      \/ snd (_fix_history h) = Some OverflowError) /\
     (snd (_fix_history h) = None
      \/ snd (_fix_history h) = Some TypeError
      \/ snd (_fix_history h) = Some OverflowError)) /\
  (forall (time_cell : datetime -> Z -> result string) (h : AdaptiveHistory),
     (forall t, In t (elapsedTimes h) ->
                exists stamp, time_cell (start h) t = Ok stamp) ->
     Forall (fun tag => (length (elapsedIndexes tag) <= length (values tag))%nat)
            (tags h) ->
     exists rows, history_rows float_text time_cell h = Ok rows) /\
  (forall (time_cell : datetime -> Z -> result string) (h : AdaptiveHistory) e,
     history_rows float_text time_cell h = Raise e ->
     e = IndexError
     \/ exists t, In t (elapsedTimes h) /\ time_cell (start h) t = Raise e).
Proof.
  split; [|split].
  - intros h. unfold _fix_history.
    pose proof (fix_tags_outcome (tags h)) as Houtcome.
    destruct (fix_tags (tags h)) as [tags' o]. exact Houtcome.
  - intros time_cell h Htime Htags. unfold history_rows.
    apply rows_from_total; [exact Htime | exact Htags | |];
      unfold initial_cursors; cbn [last_values tag_pointers];
      rewrite length_replicate; lia.
  - intros time_cell h e. unfold history_rows. apply rows_from_raises.
Qed.

End TabulationFacts.

Lemma tabulation_forward_fill_witness :
  let h := mkAdaptiveHistory "job" 0 0 [0; 10; 20]
             [mkHistoryTag "temp" (TypeName "number") [1] [int_value 5]] in
  let float_text := fun _ : float => "0.0"%string in
  let time_cell := fun (_ : datetime) (e : Z) => Ok (str_int e) in
  history_rows float_text time_cell h
  = Ok [ ["0"; "0"; ""]; ["10"; "10"; "5"]; ["20"; "20"; "5"] ]%string /\
  map Some (forward_fill float_text
              (mkHistoryTag "temp" (TypeName "number") [1] [int_value 5])
              0 3 (Plain VNone) 0)
  = [Some ""; Some "5"; Some "5"]%string.
Proof.
  cbv zeta.
  destruct (tabulation_forward_fill (fun _ => "0.0"%string))
    as (Hexample & _ & _ & Hcolumns).
  pose proof (Hexample (fun _ e => Ok (str_int e)) str_int (fun e => eq_refl))
    as Hrows.
  split; [exact Hrows|].
  destruct (Hcolumns _ _ _ Hrows) as [_ Hcol].
  symmetry. exact (Hcol 0%nat _ eq_refl).
Defined.

(** C6 (as stated) fails: a text tag sent with two recorded indexes and
    one value, whose second index points past the two elapsed times, is
    decoded and tabulated without any error. *)
Lemma malformed_payload_counterexample :
  let wire := mkAdaptiveHistory "job" 0 0 [0; 10]
                [mkHistoryTag "state" (TypeName "string") [0; 7]
                   [Plain (VStr "run")]] in
  let decoded := fst (_fix_history wire) in
  snd (_fix_history wire) = None /\
  elapsedTimes decoded = [0; 10] /\
  tags decoded
  = [mkHistoryTag "state" (TypeName "string") [0; 7] [Plain (VStr "run")]] /\
  ~ Forall arity_ok (tags decoded) /\
  forall float_text : float -> string,
    history_rows float_text (fun _ e => Ok (str_int e)) decoded
    = Ok [ ["0"; "0"; "run"]; ["10"; "10"; "run"] ]%string.
Proof.
  cbv zeta. repeat split.
  intros H. inversion H as [|tag rest Harity _]. subst.
  unfold arity_ok in Harity. simpl in Harity. discriminate.
Qed.

(** A [None] among the values of a number tag stops the decode with a
    [TypeError] and leaves the history partly decoded. *)
Lemma partial_decode_example :
  _fix_history
    (mkAdaptiveHistory "job" 0 0 [5; 5]
       [mkHistoryTag "temp" (TypeName "number") [0; 1; 1]
          (map Plain [VInt 3; VNone; VInt 1]);
        mkHistoryTag "flow" (TypeName "number") [0; 1]
          (map Plain [VInt 1; VInt 1])])
  = (mkAdaptiveHistory "job" 0 0 [5; 15]
       [mkHistoryTag "temp" (TypeName "number") [0; 1; 2]
          (map Plain [VInt 3; VNone; VInt 1]);
        mkHistoryTag "flow" (TypeName "number") [0; 1]
          (map Plain [VInt 1; VInt 1])],
     Some TypeError).
Proof. reflexivity. Qed.

(** An int beyond the range of the doubles, met after a float, stops the
    decode with an [OverflowError], although the tag holds only numbers:
    the values 0.5 and 10^400 leave the tag with 0.5 and 10^400. *)
Lemma overflow_decode_example :
  let tag := mkHistoryTag "temp" (TypeName "number") [0; 1]
               [VFloat 0x1p-1; int_value (10 ^ 400)] in
  numbers_where_expected tag /\
  fix_tag tag
  = (mkHistoryTag "temp" (TypeName "number") [0; 1]
       [VFloat 0x1p-1; int_value (10 ^ 400)],
     Some OverflowError).
Proof.
  cbv zeta. split.
  - intros _. repeat constructor.
  - vm_compute. reflexivity.
Qed.

Lemma decoder_performs_no_validation_witness :
  let float_text := fun _ : float => "0.0"%string in
  let time_cell := fun (_ : datetime) (e : Z) =>
                     if e <? 1000 then Ok (str_int e) else Raise OverflowError in
  (exists rows,
     history_rows float_text time_cell
       (mkAdaptiveHistory "job" 0 0 [0; 10]
          [mkHistoryTag "state" (TypeName "string") [0; 7]
             (map Plain [VStr "run"; VStr "stop"])])
     = Ok rows) /\
  (IndexError = IndexError
   \/ exists t : Z, In t [0] /\ time_cell 0 t = Raise IndexError).
Proof.
  cbv zeta.
  destruct (decoder_performs_no_validation (fun _ => "0.0"%string))
    as (_ & Hreturns & Hraises).
  split.
  - apply Hreturns.
    + intros t [<-|[<-|[]]]; eexists; reflexivity.
    + repeat constructor.
  - apply (Hraises
             (fun _ e => if e <? 1000 then Ok (str_int e) else Raise OverflowError)
             (mkAdaptiveHistory "job" 0 0 [0]
                [mkHistoryTag "state" (TypeName "string") [0] []])
             IndexError).
    reflexivity.
Defined.

(** ** Identifier equality *)

Lemma py_eq_refl x : py_eq x x = true.
Proof.
  destruct x as [|b|z|s]; simpl.
  - reflexivity.
  - destruct b; reflexivity.
  - apply Z.eqb_refl.
  - apply String.eqb_refl.
Qed.

Lemma py_list_eq_refl xs : py_list_eq xs xs = true.
Proof.
  induction xs as [|x xs IH]; simpl; [reflexivity|].
  now rewrite py_eq_refl, IH.
Qed.

(** [==] on two lists is: same length and pairwise equal. *)
Lemma py_list_eq_spec xs ys :
  py_list_eq xs ys = true
  <-> length xs = length ys /\
      forall (i : nat) xv yv,
        xs !! i = Some xv -> ys !! i = Some yv -> py_eq xv yv = true.
Proof.
  revert ys; induction xs as [|x xs IH]; intros [|y ys]; simpl.
  - split; [intros _; split; [reflexivity|] | reflexivity].
    intros i xv yv H. rewrite lookup_nil in H. discriminate.
  - split; [discriminate | intros [H _]; discriminate].
  - split; [discriminate | intros [H _]; discriminate].
  - rewrite andb_true_iff, IH. split.
    + intros (Hxy & Hlen & Hall). split; [congruence|].
      intros [|i] xv yv Hx Hy; simpl in Hx, Hy.
      * congruence.
      * eapply Hall; eassumption.
    + intros (Hlen & Hall). split; [|split].
      * apply (Hall 0%nat); reflexivity.
      * congruence.
      * intros i xv yv Hx Hy. apply (Hall (S i)); assumption.
Qed.

(** The test of the two-list branch of [id_equals] is list equality
    again. *)
Lemma length_and_pairwise xs ys :
  ((length xs =? length ys)%nat
   && forallb (fun p => py_eq (fst p) (snd p)) (zip xs ys))
  = py_list_eq xs ys.
Proof.
  revert ys; induction xs as [|x xs IH]; intros [|y ys]; simpl; try reflexivity.
  rewrite <- IH.
  destruct (length xs =? length ys)%nat; simpl;
    [reflexivity | now rewrite andb_false_r].
Qed.

Lemma id_equals_lists xs ys : id_equals (Seq xs) (Seq ys) = Ok (py_list_eq xs ys).
Proof.
  unfold id_equals. cbn [ident_eq].
  destruct (py_list_eq xs ys) eqn:Heq; [reflexivity|].
  now rewrite length_and_pairwise, Heq.
Qed.

(** C9: a one-element list equals its element; a two-element list equals
    itself and differs from one with another second element; two lists are
    equal exactly when they have the same length and are pairwise equal. *)
Theorem id_equals_cases :
  (forall x : pyval, id_equals (Seq [x]) (Scalar x) = Ok true) /\
  (forall x y : pyval, id_equals (Seq [x; y]) (Seq [x; y]) = Ok true) /\
  (forall x y z : pyval,
     py_eq y z = false -> id_equals (Seq [x; y]) (Seq [x; z]) = Ok false) /\
  (forall xs ys : list pyval,
     id_equals (Seq xs) (Seq ys) = Ok true
     <-> length xs = length ys /\
         forall (i : nat) xv yv,
           xs !! i = Some xv -> ys !! i = Some yv -> py_eq xv yv = true).
Proof.
  split; [|split; [|split]].
  - intros x. unfold id_equals. cbn. now rewrite py_eq_refl.
  - intros x y. rewrite id_equals_lists. now rewrite py_list_eq_refl.
  - intros x y z Hyz. rewrite id_equals_lists. simpl.
    now rewrite py_eq_refl, Hyz.
  - intros xs ys. rewrite id_equals_lists, <- py_list_eq_spec.
    split; intros H; congruence.
Qed.

Lemma id_equals_cases_witness :
  id_equals (Seq [VStr "G"; VInt 4]) (Seq [VStr "G"; VInt 5]) = Ok false.
Proof.
  destruct id_equals_cases as (_ & _ & Hdiffer & _).
  apply (Hdiffer (VStr "G") (VInt 4) (VInt 5)). reflexivity.
Defined.

(** C10: comparing an empty list with a scalar raises [IndexError] from
    the access to element 0, on either side; when no empty list is
    compared with a scalar, [id_equals] returns a boolean. *)
Theorem id_equals_partial :
  (forall y : pyval, id_equals (Seq []) (Scalar y) = Raise IndexError) /\
  (forall x : pyval, id_equals (Scalar x) (Seq []) = Raise IndexError) /\
  (forall x y : ident,
     (forall v, ~ (x = Seq [] /\ y = Scalar v)) ->
     (forall v, ~ (x = Scalar v /\ y = Seq [])) ->
     exists b : bool, id_equals x y = Ok b).
Proof.
  split; [|split].
  - intros y. reflexivity.
  - intros x. reflexivity.
  - intros x y Hx Hy. unfold id_equals.
    destruct (ident_eq x y); [eauto|].
    destruct x as [xv|xs], y as [yv|ys]; eauto.
    + destruct ys as [|y0 ys]; [|cbn; eauto].
      exfalso. apply (Hy xv). split; reflexivity.
    + destruct xs as [|x0 xs]; [|cbn; eauto].
      exfalso. apply (Hx yv). split; reflexivity.
Qed.

Lemma id_equals_partial_witness :
  exists b : bool, id_equals (Seq [VStr "G"; VInt 4]) (Scalar (VStr "G")) = Ok b.
Proof.
  destruct id_equals_partial as (_ & _ & Hreturns).
  apply Hreturns; intros v [H1 H2]; discriminate.
Defined.

(** ** Key codec *)

(** *** Splitting and joining *)

Lemma split_at_no_separator s :
  no_separator s = true -> split_at s = [s].
Proof.
  induction s as [|c rest IH]; simpl; [reflexivity|].
  destruct (Ascii.eqb c "@"); simpl; [discriminate|].
  intros H. now rewrite IH.
Qed.

Lemma split_at_append x rest :
  no_separator x = true ->
  split_at (x ++ String "@" rest)%string = x :: split_at rest.
Proof.
  induction x as [|c x IH]; simpl.
  - reflexivity.
  - destruct (Ascii.eqb c "@"); simpl; [discriminate|].
    intros H. now rewrite IH.
Qed.

Lemma split_at_concat parts :
  parts <> [] ->
  Forall (fun part => no_separator part = true) parts ->
  split_at (String.concat "@" parts) = parts.
Proof.
  induction parts as [|x parts IH]; intros Hne Hall; [congruence|].
  inversion Hall as [|? ? Hx Hparts]; subst.
  destruct parts as [|y parts].
  - simpl. now apply split_at_no_separator.
  - change (String.concat "@" (x :: y :: parts))
      with (x ++ String "@" (String.concat "@" (y :: parts)))%string.
    rewrite split_at_append by exact Hx.
    rewrite IH; [reflexivity | discriminate | exact Hparts].
Qed.

Lemma split_at_single s :
  length (split_at s) = 1%nat <-> no_separator s = true.
Proof.
  split; [|intros H; now rewrite split_at_no_separator].
  induction s as [|c rest IH]; simpl; [reflexivity|].
  destruct (Ascii.eqb c "@"); simpl.
  - destruct rest; simpl; [discriminate|].
    destruct (Ascii.eqb a "@"); [discriminate|].
    destruct (split_at rest); discriminate.
  - destruct (split_at rest) as [|part parts] eqn:Hsplit; simpl.
    + destruct rest; simpl in Hsplit; [discriminate|].
      destruct (Ascii.eqb a "@"); [discriminate|].
      destruct (split_at rest); discriminate.
    + intros H. apply IH. simpl. exact H.
Qed.

(** *** Printing and reading integers *)

Lemma int_digits_of_uint_acc d :
  forall acc : positive,
    int_digits (Zpos acc) true (NilEmpty.string_of_uint d)
    = Ok (Zpos (Pos.of_uint_acc d acc)).
Proof.
  induction d; intros acc; simpl; try reflexivity;
    rewrite <- IHd; f_equal; lia.
Qed.

Lemma int_digits_of_uint d :
  int_digits 0 true (NilEmpty.string_of_uint d) = Ok (Z.of_N (Pos.of_uint d)).
Proof.
  induction d; simpl; try reflexivity; try exact IHd;
    match goal with
    | |- _ = Ok (Z.pos (Pos.of_uint_acc _ ?acc)) =>
        exact (int_digits_of_uint_acc d acc)
    end.
Qed.

Lemma int_digits_start d :
  d <> Nil ->
  int_digits 0 false (NilEmpty.string_of_uint d) = Ok (Z.of_N (Pos.of_uint d)).
Proof.
  intros Hd. pose proof (int_digits_of_uint d) as H.
  destruct d; [congruence| | | | | | | | | |]; exact H.
Qed.

(** A literal that starts with a digit has neither white space nor a sign
    to skip. *)
Lemma py_int_digit_first c rest d :
  digit_value c = Some d ->
  py_int (String c rest) = int_digits 0 false (String c rest).
Proof.
  destruct c as [[] [] [] [] [] [] [] []]; intros H; vm_compute in H;
    try discriminate H; reflexivity.
Qed.

Lemma string_of_uint_digit_first d :
  d <> Nil ->
  exists c rest v,
    NilEmpty.string_of_uint d = String c rest /\ digit_value c = Some v.
Proof.
  destruct d; [congruence| | | | | | | | | |]; intros _; simpl; eauto.
Qed.

Lemma py_int_string_of_uint d :
  d <> Nil ->
  py_int (NilEmpty.string_of_uint d) = Ok (Z.of_N (Pos.of_uint d)).
Proof.
  intros Hd.
  destruct (string_of_uint_digit_first d Hd) as (c & rest & v & Hs & Hc).
  rewrite <- (int_digits_start d Hd), Hs.
  eapply py_int_digit_first. exact Hc.
Qed.

Lemma string_of_uint_nonnil d :
  d <> Nil -> NilZero.string_of_uint d = NilEmpty.string_of_uint d.
Proof. destruct d; [congruence| | | | | | | | | |]; reflexivity. Qed.

(** Reading back a printed int gives the int. *)
Lemma py_int_str_int z : py_int (str_int z) = Ok z.
Proof.
  unfold str_int. destruct z as [|p|p]; simpl.
  - reflexivity.
  - pose proof (DecimalPos.Unsigned.to_uint_nonnil p) as Hnil.
    rewrite string_of_uint_nonnil, py_int_string_of_uint by exact Hnil.
    now rewrite DecimalPos.Unsigned.of_to.
  - pose proof (DecimalPos.Unsigned.to_uint_nonnil p) as Hnil.
    rewrite string_of_uint_nonnil by exact Hnil.
    unfold py_int. cbn [lstrip is_space].
    rewrite (int_digits_start _ Hnil), DecimalPos.Unsigned.of_to.
    reflexivity.
Qed.

Lemma no_separator_string_of_uint d :
  no_separator (NilEmpty.string_of_uint d) = true.
Proof. induction d; simpl; auto. Qed.

Lemma no_separator_str_int z : no_separator (str_int z) = true.
Proof.
  unfold str_int.
  destruct z as [|p|p]; simpl; try reflexivity;
    rewrite string_of_uint_nonnil by apply DecimalPos.Unsigned.to_uint_nonnil;
    apply no_separator_string_of_uint.
Qed.

(** *** Dropping trailing sentinels *)

(** What the scan of [to_key_string] ends with: every element from
    position [r] up to [j] is a sentinel, and the element before position
    [r], if there is one, is not. *)
Lemma significant_spec key j :
  (j <= length key)%nat ->
  let r := significant key j in
  (r <= j)%nat /\
  (r = 0%nat \/ exists v, key !! (r - 1)%nat = Some v /\ is_sentinel v = false) /\
  (forall i : nat, (r <= i < j)%nat ->
     exists v, key !! i = Some v /\ is_sentinel v = true).
Proof.
  induction j as [|j IH]; intros Hj; cbn zeta.
  - simpl. split; [lia|]. split; [left; reflexivity|]. intros i Hi. lia.
  - simpl.
    destruct (lookup_lt_is_Some_2 key j ltac:(lia)) as [v Hv]. rewrite Hv.
    destruct (is_sentinel v) eqn:Hs.
    + destruct (IH ltac:(lia)) as (Hle & Hlast & Hdrop).
      split; [lia|]. split; [exact Hlast|].
      intros i Hi. destruct (decide (i = j)) as [->|Hne].
      * exists v. split; assumption.
      * apply Hdrop. lia.
    + split; [lia|]. split.
      * right. exists v. replace (S j - 1)%nat with j by lia. split; assumption.
      * intros i Hi. lia.
Qed.

Lemma length_truncate key :
  length (truncate key) = significant key (length key).
Proof.
  unfold truncate.
  destruct (significant_spec key (length key) ltac:(lia)) as (Hle & _).
  rewrite length_take. lia.
Qed.

(** A key that does not end with a sentinel is kept whole. *)
Lemma significant_whole key :
  (key = [] \/
   exists v, key !! (length key - 1)%nat = Some v /\ is_sentinel v = false) ->
  significant key (length key) = length key.
Proof.
  intros [->|(v & Hv & Hs)]; [reflexivity|].
  destruct (length key) as [|j] eqn:Hlen.
  - reflexivity.
  - simpl. replace (S j - 1)%nat with j in Hv by lia. now rewrite Hv, Hs.
Qed.

Lemma truncate_idempotent key : truncate (truncate key) = truncate key.
Proof.
  assert (Hwhole : significant (truncate key) (length (truncate key))
                   = length (truncate key)).
  { apply significant_whole. rewrite length_truncate.
    destruct (significant_spec key (length key) ltac:(lia)) as (Hle & Hlast & _).
    cbn zeta in *. unfold truncate.
    destruct Hlast as [H0|(v & Hv & Hs)].
    - left. rewrite H0. reflexivity.
    - right. exists v. split; [|exact Hs].
      assert (significant key (length key) <> 0)%nat.
      { intros H0. rewrite H0 in Hv. simpl in Hv.
        pose proof (significant_spec key (length key) ltac:(lia)) as (_ & _ & Hd).
        cbn zeta in Hd. rewrite H0 in Hd.
        destruct key as [|k0 key']; [rewrite lookup_nil in Hv; discriminate|].
        destruct (Hd 0%nat ltac:(simpl; lia)) as (v' & Hv' & Hs').
        congruence. }
      rewrite lookup_take_lt by lia. exact Hv. }
  unfold truncate at 1. rewrite Hwhole. apply firstn_all.
Qed.

(** *** Round trips *)

Lemma id_parts_from_ints ms :
  forall index : nat,
    id_parts_from (S index) (map str_int ms) = Ok (map VInt ms).
Proof.
  induction ms as [|m ms IH]; intros index; simpl; [reflexivity|].
  rewrite py_int_str_int. cbn [bind]. rewrite IH. reflexivity.
Qed.

Lemma segment_int n : segment (VInt n) = str_int n.
Proof. reflexivity. Qed.

(** The blank marker: a head [" "] is written as the empty segment and
    read back as [" "]; any other non-empty head is written as it is. *)
Lemma head_segment_round_trip h :
  h <> ""%string ->
  (if String.eqb (segment (VStr h)) "" then " "%string else segment (VStr h)) = h.
Proof.
  intros Hh. unfold segment. cbn [py_eq py_str].
  destruct (String.eqb h " ") eqn:Hblank.
  - apply String.eqb_eq in Hblank. now subst h.
  - destruct (String.eqb h "") eqn:Hempty; [|reflexivity].
    apply String.eqb_eq in Hempty. congruence.
Qed.

Lemma no_separator_head_segment h :
  no_separator h = true -> no_separator (segment (VStr h)) = true.
Proof.
  intros Hh. unfold segment. cbn [py_eq py_str].
  destruct (String.eqb h " "); [reflexivity | exact Hh].
Qed.

(** The truncation of a key made of a head and integers is again a head
    followed by integers. *)
Lemma truncate_composite h ns :
  (1 <= length (truncate (VStr h :: map VInt ns)))%nat ->
  exists ms, truncate (VStr h :: map VInt ns) = VStr h :: map VInt ms /\
             length (truncate (VStr h :: map VInt ns)) = S (length ms).
Proof.
  intros Hlen. pose proof Hlen as Hj. rewrite length_truncate in Hj.
  unfold truncate in *.
  destruct (significant (VStr h :: map VInt ns) (length (VStr h :: map VInt ns)))
    as [|j]; [lia|].
  cbn [take firstn]. rewrite firstn_map.
  exists (take j ns). split; [reflexivity|].
  cbn [length]. now rewrite length_map.
Qed.

Lemma string_to_id_composite h ms :
  h <> ""%string ->
  no_separator h = true ->
  ms <> [] ->
  string_to_id (String.concat "@" (map segment (VStr h :: map VInt ms)))
  = Ok (Seq (VStr h :: map VInt ms)).
Proof.
  intros Hh Hsep Hms. unfold string_to_id.
  rewrite split_at_concat.
  - destruct ms as [|m ms]; [congruence|].
    cbn [map length Nat.eqb id_parts_from bind].
    rewrite head_segment_round_trip by exact Hh.
    rewrite segment_int, py_int_str_int. cbn [bind].
    assert (Hrest : map segment (map VInt ms) = map str_int ms).
    { rewrite map_map. apply map_ext. intros n. apply segment_int. }
    rewrite Hrest, id_parts_from_ints. reflexivity.
  - discriminate.
  - cbn [map]. constructor; [now apply no_separator_head_segment|].
    apply Forall_forall. intros part Hin.
    apply list_elem_of_In, in_map_iff in Hin. destruct Hin as (v & <- & Hv).
    apply in_map_iff in Hv. destruct Hv as (n & <- & _).
    rewrite segment_int. apply no_separator_str_int.
Qed.

(** C4 (as stated) fails in both directions: the text "A@B" has no empty
    and no zero segment but cannot be decoded; "A@07" comes back as "A@7";
    the key [["A","B"]] has nothing to truncate but its text cannot be
    decoded; and the scalar 5 comes back as the string "5". *)
Lemma key_round_trip_counterexample :
  split_at "A@B" = ["A"; "B"]%string /\
  encode_decode "A@B" = Raise ValueError /\
  encode_decode "A@07" = Ok "A@7"%string /\
  truncate [VStr "A"; VStr "B"] = [VStr "A"; VStr "B"] /\
  string_to_id (id_to_string (Seq [VStr "A"; VStr "B"])) = Raise ValueError /\
  string_to_id (id_to_string (Scalar (VInt 5))) = Ok (Scalar (VStr "5")).
Proof. repeat split. Qed.

(** C4 (amended): a text without separator is decoded to itself as a
    scalar and encoded back unchanged; a key made of a non-empty head
    without separator followed by integers, which keeps at least two
    segments once its trailing sentinels are dropped, is encoded to a text
    that decodes to the truncated key, and that text is encoded back
    unchanged. *)
Theorem key_codec_round_trip :
  (forall s : string,
     no_separator s = true ->
     string_to_id s = Ok (Scalar (VStr s)) /\ encode_decode s = Ok s) /\
  (forall (h : string) (ns : list Z),
     h <> ""%string ->
     no_separator h = true ->
     (2 <= length (truncate (VStr h :: map VInt ns)))%nat ->
     string_to_id (id_to_string (Seq (VStr h :: map VInt ns)))
     = Ok (Seq (truncate (VStr h :: map VInt ns))) /\
     encode_decode (id_to_string (Seq (VStr h :: map VInt ns)))
     = Ok (id_to_string (Seq (VStr h :: map VInt ns)))).
Proof.
  split.
  - intros s Hs.
    assert (Hdecode : string_to_id s = Ok (Scalar (VStr s))).
    { unfold string_to_id. now rewrite split_at_no_separator. }
    split; [exact Hdecode|]. unfold encode_decode. now rewrite Hdecode.
  - intros h ns Hh Hsep Hlen.
    destruct (truncate_composite h ns ltac:(lia)) as (ms & Htrunc & Hms).
    assert (Hne : ms <> []) by (intros ->; simpl in Hms; lia).
    assert (Hdecode : string_to_id (id_to_string (Seq (VStr h :: map VInt ns)))
                      = Ok (Seq (truncate (VStr h :: map VInt ns)))).
    { cbn [id_to_string]. unfold to_key_string. rewrite Htrunc.
      now apply string_to_id_composite. }
    split; [exact Hdecode|].
    unfold encode_decode. rewrite Hdecode. cbn [bind id_to_string].
    unfold to_key_string. now rewrite truncate_idempotent.
Qed.

Lemma key_codec_round_trip_witness :
  encode_decode "G12" = Ok "G12"%string /\
  string_to_id (id_to_string (Seq (VStr "G" :: map VInt [12; 0; -3; 0; 0])))
  = Ok (Seq [VStr "G"; VInt 12; VInt 0; VInt (-3)]).
Proof.
  destruct key_codec_round_trip as [Hscalar Hkey].
  split.
  - apply (Hscalar "G12"%string). reflexivity.
  - destruct (Hkey "G"%string [12; 0; -3; 0; 0]) as [Hdecode _].
    + discriminate.
    + reflexivity.
    + vm_compute. lia.
    + exact Hdecode.
Defined.

(** The ambiguity the specification accepts: a key of which only the head
    survives the truncation is written as its head alone and read back as
    a bare scalar, which [id_equals] still holds equal to the key. *)
Lemma key_degenerates_to_scalar (h : string) (ns : list Z) :
  h <> ""%string ->
  h <> " "%string ->
  no_separator h = true ->
  length (truncate (VStr h :: map VInt ns)) = 1%nat ->
  string_to_id (id_to_string (Seq (VStr h :: map VInt ns))) = Ok (Scalar (VStr h)) /\
  id_equals (Seq (VStr h :: map VInt ns)) (Scalar (VStr h)) = Ok true.
Proof.
  intros Hempty Hblank Hsep Hlen. split.
  - destruct (truncate_composite h ns ltac:(lia)) as (ms & Htrunc & Hms).
    destruct ms as [|m ms]; [|simpl in Hms; lia].
    cbn [id_to_string]. unfold to_key_string. rewrite Htrunc.
    cbn [map String.concat]. unfold segment. cbn [py_eq py_str].
    destruct (String.eqb h " ") eqn:Hb.
    + apply String.eqb_eq in Hb. congruence.
    + unfold string_to_id. now rewrite split_at_no_separator.
  - unfold id_equals. cbn [ident_eq item lookup bind]. cbn.
    now rewrite String.eqb_refl.
Qed.

(** The scenarios of the specification. *)
Lemma to_key_string_scenarios :
  to_key_string [VStr "A"; VStr ""; VInt 0] = "A"%string /\
  to_key_string [VStr " "; VStr "B"] = "@B"%string.
Proof. split; reflexivity. Qed.

(* ================================================================== *)
(** * Part III: further properties of the code                          *)
(* ================================================================== *)

(** ** Identifier equality as a relation *)

Lemma py_eq_sym x y : py_eq x y = py_eq y x.
Proof.
  destruct x as [|a|a|a], y as [|b|b|b]; simpl; try reflexivity.
  - destruct a, b; reflexivity.
  - apply Z.eqb_sym.
  - apply Z.eqb_sym.
  - apply Z.eqb_sym.
  - apply String.eqb_sym.
Qed.

Lemma py_list_eq_sym xs : forall ys, py_list_eq xs ys = py_list_eq ys xs.
Proof.
  induction xs as [|x xs IH]; intros [|y ys]; simpl; try reflexivity.
  now rewrite py_eq_sym, IH.
Qed.

Lemma ident_eq_sym x y : ident_eq x y = ident_eq y x.
Proof.
  destruct x as [xv|xs], y as [yv|ys]; simpl; try reflexivity.
  - apply py_eq_sym.
  - apply py_list_eq_sym.
Qed.

(** X1.  [id_equals] is reflexive and symmetric, the error included: it returns
    [True] on equal arguments, and swapping the arguments changes neither
    the boolean returned nor the exception raised. *)
Theorem id_equals_reflexive_symmetric :
  (forall x : ident, id_equals x x = Ok true) /\
  (forall x y : ident, id_equals x y = id_equals y x).
Proof.
  split.
  - intros [xv|xs]; unfold id_equals; cbn [ident_eq].
    + now rewrite py_eq_refl.
    + now rewrite py_list_eq_refl.
  - intros x y. unfold id_equals. rewrite (ident_eq_sym y x).
    destruct (ident_eq x y); [reflexivity|].
    destruct x as [xv|xs], y as [yv|ys]; try reflexivity.
    rewrite !length_and_pairwise. now rewrite py_list_eq_sym.
Qed.

(** X2.  [id_equals] is not transitive: two keys with the same head and
    different second segments are both equal to the bare head, and not
    equal to each other. *)
Theorem id_equals_not_transitive (h m n : pyval) :
  py_eq m n = false ->
  id_equals (Seq [h; m]) (Scalar h) = Ok true /\
  id_equals (Scalar h) (Seq [h; n]) = Ok true /\
  id_equals (Seq [h; m]) (Seq [h; n]) = Ok false.
Proof.
  intros Hmn. unfold id_equals. cbn [ident_eq item lookup bind py_list_eq].
  cbn. rewrite !py_eq_refl, Hmn. cbn. repeat split.
Qed.

Lemma id_equals_not_transitive_witness :
  id_equals (Seq [VStr "G"; VInt 1]) (Scalar (VStr "G")) = Ok true /\
  id_equals (Scalar (VStr "G")) (Seq [VStr "G"; VInt 2]) = Ok true /\
  id_equals (Seq [VStr "G"; VInt 1]) (Seq [VStr "G"; VInt 2]) = Ok false.
Proof.
  apply (id_equals_not_transitive (VStr "G") (VInt 1) (VInt 2)). reflexivity.
Defined.

(** ** What [to_key_string] keeps of a key *)

Lemma significant_prefix key suffix j :
  (j <= length key)%nat ->
  significant (key ++ suffix) j = significant key j.
Proof.
  induction j as [|j IH]; intros Hj; [reflexivity|].
  cbn [significant]. rewrite lookup_app_l by lia.
  destruct (key !! j) as [v|]; [|reflexivity].
  destruct (is_sentinel v); [apply IH; lia | reflexivity].
Qed.

Lemma significant_sentinels key suffix :
  Forall (fun v => is_sentinel v = true) suffix ->
  significant (key ++ suffix) (length (key ++ suffix))
  = significant key (length key).
Proof.
  induction suffix as [|v suffix IH] using rev_ind; intros Hall.
  - now rewrite app_nil_r.
  - apply Forall_app in Hall. destruct Hall as [Hsuffix Hv].
    inversion Hv as [|? ? Hs _]; subst.
    rewrite app_assoc. rewrite length_app. cbn [length].
    rewrite Nat.add_1_r. cbn [significant].
    rewrite list_lookup_middle by reflexivity. rewrite Hs.
    rewrite significant_prefix by lia. apply IH. exact Hsuffix.
Qed.

(** The values the scan of [to_key_string] passes over are those equal
    to [''] or to [0]: the empty string, 0 and [False], not [None]. *)
Lemma is_sentinel_spec v :
  is_sentinel v = true <-> v = VStr "" \/ v = VInt 0 \/ v = VBool false.
Proof.
  unfold is_sentinel. destruct v as [|b|z|s]; cbn [py_eq orb].
  - split; [discriminate|]. intros [H|[H|H]]; discriminate.
  - destruct b; cbn; (split; [|intros [H|[H|H]]; inversion H; reflexivity]).
    + discriminate.
    + intros _. right. now right.
  - rewrite Z.eqb_eq. split.
    + intros ->. right. now left.
    + intros [H|[H|H]]; inversion H; reflexivity.
  - rewrite orb_false_r, String.eqb_eq. split.
    + intros ->. now left.
    + intros [H|[H|H]]; inversion H; reflexivity.
Qed.

(** X3.  Trailing sentinels are insignificant.  The sentinels are exactly
    the empty string, 0 and [False]; appending sentinels to a key changes
    neither the segments kept nor the key text, and a key of sentinels only
    has the empty text.  [None] is no sentinel: a key that ends with it is
    kept whole. *)
Theorem to_key_string_trailing_sentinels (key suffix : list pyval) :
  Forall (fun v => is_sentinel v = true) suffix ->
  truncate (key ++ suffix) = truncate key /\
  to_key_string (key ++ suffix) = to_key_string key /\
  to_key_string suffix = ""%string /\
  (forall v, is_sentinel v = true
             <-> v = VStr "" \/ v = VInt 0 \/ v = VBool false) /\
  truncate (key ++ [VNone]) = key ++ [VNone].
Proof.
  intros Hall.
  assert (Htrunc : forall k, truncate (k ++ suffix) = truncate k).
  { intros k. unfold truncate. rewrite significant_sentinels by exact Hall.
    destruct (significant_spec k (length k) ltac:(lia)) as (Hle & _).
    cbn zeta in Hle. now rewrite take_app_le by lia. }
  split; [apply Htrunc|]. split; [|split; [|split]].
  - unfold to_key_string. now rewrite Htrunc.
  - unfold to_key_string. rewrite <- (app_nil_l suffix), Htrunc. reflexivity.
  - apply is_sentinel_spec.
  - unfold truncate. rewrite length_app. cbn [length].
    rewrite Nat.add_1_r. cbn [significant].
    rewrite list_lookup_middle by reflexivity. cbn [is_sentinel py_eq orb].
    apply take_ge. rewrite length_app. cbn [length]. lia.
Qed.

Lemma to_key_string_trailing_sentinels_witness :
  to_key_string ([VStr "G"; VInt 7] ++ [VInt 0; VStr ""; VBool false])
  = to_key_string [VStr "G"; VInt 7].
Proof.
  apply (to_key_string_trailing_sentinels [VStr "G"; VInt 7]
           [VInt 0; VStr ""; VBool false]).
  repeat constructor.
Defined.

(** ** What [string_to_id] returns *)

Lemma int_digits_raises s :
  forall acc after_digit e, int_digits acc after_digit s = Raise e -> e = ValueError.
Proof.
  induction s as [|c rest IH]; intros acc after_digit e; simpl.
  - destruct after_digit; congruence.
  - destruct (digit_value c) as [d|]; [apply IH|].
    destruct (Ascii.eqb c "_").
    + destruct after_digit; [apply IH | congruence].
    + destruct (is_space c && after_digit && all_space rest); congruence.
Qed.

Lemma py_int_raises value e : py_int value = Raise e -> e = ValueError.
Proof.
  unfold py_int.
  assert (Hneg : forall rest,
             (z <- int_digits 0 false rest ;; Ok (- z)) = Raise e -> e = ValueError).
  { intros rest. destruct (int_digits 0 false rest) as [z|e'] eqn:Hd; cbn [bind];
      [discriminate|].
    intros H. inversion H; subst. eapply int_digits_raises. exact Hd. }
  destruct (lstrip value) as [|c rest]; [apply int_digits_raises|].
  destruct c as [[] [] [] [] [] [] [] []];
    solve [apply int_digits_raises | apply Hneg].
Qed.

(** The parts after the first are read as ints, whatever the position the
    loop has reached. *)
Lemma id_parts_from_tail parts :
  forall (index : nat) id_parts,
    id_parts_from (S index) parts = Ok id_parts ->
    exists ns, id_parts = map VInt ns /\ length ns = length parts.
Proof.
  induction parts as [|value rest IH]; intros index id_parts; simpl.
  - intros H. inversion H. exists []. split; reflexivity.
  - destruct (py_int value) as [z|e]; cbn [bind]; [|discriminate].
    destruct (id_parts_from (S (S index)) rest) as [more|e] eqn:Hrest;
      cbn [bind]; [|discriminate].
    intros H. inversion H; subst.
    destruct (IH _ _ Hrest) as (ns & -> & Hlen).
    exists (z :: ns). split; [reflexivity | simpl; now rewrite Hlen].
Qed.

Lemma id_parts_from_raises parts :
  forall (index : nat) e, id_parts_from index parts = Raise e -> e = ValueError.
Proof.
  induction parts as [|value rest IH]; intros index e; simpl; [discriminate|].
  destruct (index =? 0)%nat; cbn [bind].
  - destruct (id_parts_from (S index) rest) as [more|e'] eqn:Hrest;
      cbn [bind]; [discriminate|].
    intros H. inversion H; subst. eapply IH. exact Hrest.
  - destruct (py_int value) as [z|e'] eqn:Hint; cbn [bind].
    + destruct (id_parts_from (S index) rest) as [more|e''] eqn:Hrest;
        cbn [bind]; [discriminate|].
      intros H. inversion H; subst. eapply IH. exact Hrest.
    + intros H. inversion H; subst. eapply py_int_raises. exact Hint.
Qed.

Lemma split_at_nonempty s : (1 <= length (split_at s))%nat.
Proof.
  induction s as [|c rest IH]; simpl; [lia|].
  destruct (Ascii.eqb c "@"); simpl; [lia|].
  destruct (split_at rest); simpl in *; lia.
Qed.

(** X4.  [string_to_id] raises nothing but [ValueError]; it returns a bare
    string exactly for the texts without separator, and then the text
    itself; any list it returns has one element per part of the text, at
    least two, a non-empty string first and ints after it. *)
Theorem string_to_id_shape (s : string) :
  (forall e, string_to_id s = Raise e -> e = ValueError) /\
  (forall v, string_to_id s = Ok (Scalar v) ->
             v = VStr s /\ no_separator s = true) /\
  (no_separator s = true -> string_to_id s = Ok (Scalar (VStr s))) /\
  (forall key, string_to_id s = Ok (Seq key) ->
     (2 <= length key)%nat /\ length key = length (split_at s) /\
     exists (h : string) (ns : list Z),
       key = VStr h :: map VInt ns /\ h <> ""%string).
Proof.
  unfold string_to_id.
  destruct (length (split_at s) =? 1)%nat eqn:Hone.
  - apply Nat.eqb_eq in Hone. pose proof (proj1 (split_at_single s) Hone) as Hsep.
    repeat split; try discriminate; try congruence.
  - apply Nat.eqb_neq in Hone. pose proof (split_at_nonempty s) as Hparts.
    split; [|split; [|split]].
    + intros e.
      destruct (id_parts_from 0 (split_at s)) as [id_parts|e'] eqn:Hloop;
        cbn [bind]; [discriminate|].
      intros H. inversion H; subst. eapply id_parts_from_raises. exact Hloop.
    + intros v.
      destruct (id_parts_from 0 (split_at s)); cbn [bind]; discriminate.
    + intros Hsep. apply split_at_single in Hsep. congruence.
    + intros key.
      destruct (split_at s) as [|value rest] eqn:Hsplit; [simpl in Hparts; lia|].
      cbn [id_parts_from Nat.eqb bind].
      destruct (id_parts_from 1 rest) as [more|e] eqn:Hrest; cbn [bind];
        [|discriminate].
      intros H. inversion H; subst key.
      destruct (id_parts_from_tail _ _ _ Hrest) as (ns & -> & Hlen).
      cbn [length] in *. rewrite length_map, Hlen.
      split; [lia|]. split; [reflexivity|].
      exists (if String.eqb value "" then " "%string else value), ns.
      split; [reflexivity|].
      destruct (String.eqb value "") eqn:Hv; [discriminate|].
      now apply String.eqb_neq in Hv.
Qed.

Lemma string_to_id_shape_witness :
  string_to_id "@12@-3" = Ok (Seq [VStr " "; VInt 12; VInt (-3)]) /\
  exists (h : string) (ns : list Z),
    [VStr " "; VInt 12; VInt (-3)] = VStr h :: map VInt ns /\ h <> ""%string.
Proof.
  split; [reflexivity|].
  destruct (string_to_id_shape "@12@-3") as (_ & _ & _ & Hshape).
  destruct (Hshape [VStr " "; VInt 12; VInt (-3)] eq_refl) as (_ & _ & Hparts).
  exact Hparts.
Defined.

(** ** Key texts do not collide *)

Lemma string_to_id_to_key_string h ns :
  h <> ""%string ->
  no_separator h = true ->
  (2 <= length (truncate (VStr h :: map VInt ns)))%nat ->
  string_to_id (to_key_string (VStr h :: map VInt ns))
  = Ok (Seq (truncate (VStr h :: map VInt ns))).
Proof.
  intros Hh Hsep Hlen.
  destruct (truncate_composite h ns ltac:(lia)) as (ms & Htrunc & Hms).
  assert (Hne : ms <> []) by (intros ->; simpl in Hms; lia).
  unfold to_key_string. rewrite Htrunc. now apply string_to_id_composite.
Qed.

(** X5.  Two keys made of a non-empty head without separator and integers,
    each keeping at least two segments, have the same text only when they
    are the same once their trailing sentinels are dropped. *)
Theorem to_key_string_injective (h1 h2 : string) (ns1 ns2 : list Z) :
  h1 <> ""%string -> no_separator h1 = true ->
  h2 <> ""%string -> no_separator h2 = true ->
  (2 <= length (truncate (VStr h1 :: map VInt ns1)))%nat ->
  (2 <= length (truncate (VStr h2 :: map VInt ns2)))%nat ->
  to_key_string (VStr h1 :: map VInt ns1) = to_key_string (VStr h2 :: map VInt ns2) ->
  truncate (VStr h1 :: map VInt ns1) = truncate (VStr h2 :: map VInt ns2).
Proof.
  intros Hh1 Hs1 Hh2 Hs2 Hl1 Hl2 Htext.
  pose proof (string_to_id_to_key_string h1 ns1 Hh1 Hs1 Hl1) as H1.
  pose proof (string_to_id_to_key_string h2 ns2 Hh2 Hs2 Hl2) as H2.
  rewrite Htext, H2 in H1. congruence.
Qed.

Lemma to_key_string_injective_witness :
  truncate (VStr "G" :: map VInt [4; 0]) = truncate (VStr "G" :: map VInt [4]).
Proof.
  apply (to_key_string_injective "G" "G" [4; 0] [4]);
    try discriminate; try reflexivity; vm_compute; lia.
Defined.

(** ** What the decoder keeps, and what it leaves behind when it raises *)

Lemma length_elapsed_stream prev prev_delta l :
  length (elapsed_stream prev prev_delta l) = length l.
Proof.
  revert prev prev_delta; induction l as [|e rest IH]; intros prev prev_delta;
    simpl; [reflexivity|].
  now rewrite IH.
Qed.

(** The elapsed-time rule is the index rule applied twice. *)
Lemma elapsed_stream_twice prev prev_delta l :
  elapsed_stream prev prev_delta l = index_stream prev (index_stream prev_delta l).
Proof.
  revert prev prev_delta; induction l as [|e rest IH]; intros prev prev_delta;
    simpl; [reflexivity|].
  now rewrite IH.
Qed.

(** X6.  Decoding the elapsed times is decoding them as indexes twice: the
    second-order decoding is the first-order cumulative sum of the
    first-order cumulative sum. *)
Theorem fix_elapsed_times_twice (d : list Z) :
  fix_elapsed_times d = fix_elapsed_indexes (fix_elapsed_indexes d).
Proof.
  rewrite fix_elapsed_times_stream, !fix_elapsed_indexes_stream.
  apply elapsed_stream_twice.
Qed.

Lemma fix_tag_keeps tag :
  name (fst (fix_tag tag)) = name tag /\
  type (fst (fix_tag tag)) = type tag /\
  length (elapsedIndexes (fst (fix_tag tag))) = length (elapsedIndexes tag) /\
  (is_number_kind tag = false -> is_boolean_kind tag = false ->
   values (fst (fix_tag tag)) = values tag).
Proof.
  unfold is_number_kind, is_boolean_kind. fix_tag_streams.
  destruct (type_is (type tag) "number" || type_is (type tag) "date").
  - destruct (number_stream (NInt 0) (values tag)) as [values' o].
    cbn [fst name type elapsedIndexes]. rewrite length_index_stream.
    repeat split. discriminate.
  - destruct (type_is (type tag) "boolean").
    + destruct (values tag); cbn [fst name type elapsedIndexes];
        rewrite length_index_stream; repeat split; discriminate.
    + cbn [fst name type elapsedIndexes values]. rewrite length_index_stream.
      repeat split.
Qed.

(** Every tag the loop leaves behind is the wire tag or its decoding. *)
Lemma fix_tags_pointwise l :
  Forall2 (fun tag tag' => tag' = tag \/ tag' = fst (fix_tag tag))
          l (fst (fix_tags l)).
Proof.
  induction l as [|tag rest IH]; simpl; [constructor|].
  destruct (fix_tag tag) as [tag' [e|]] eqn:Htag; cbn [fst].
  - constructor; [right; now rewrite Htag|].
    clear. induction rest; constructor; auto.
  - destruct (fix_tags rest) as [rest' o]. cbn [fst] in *.
    constructor; [right; now rewrite Htag | exact IH].
Qed.

(** X7.  The decoder never changes the identifier or the time bounds of a
    history, the number of its elapsed times, the number, order, names and
    kinds of its tags, the number of recorded indexes of a tag, nor the
    values of a tag that is neither number, date nor boolean; this holds
    also when the decode raises. *)
Theorem fix_history_keeps (h : AdaptiveHistory) :
  let h' := fst (_fix_history h) in
  id h' = id h /\ start h' = start h /\ stop h' = stop h /\
  length (elapsedTimes h') = length (elapsedTimes h) /\
  length (tags h') = length (tags h) /\
  forall (k : nat) tag tag',
    tags h !! k = Some tag -> tags h' !! k = Some tag' ->
    name tag' = name tag /\ type tag' = type tag /\
    length (elapsedIndexes tag') = length (elapsedIndexes tag) /\
    (is_number_kind tag = false -> is_boolean_kind tag = false ->
     values tag' = values tag).
Proof.
  cbv zeta. unfold _fix_history.
  pose proof (fix_tags_pointwise (tags h)) as Hpoint.
  destruct (fix_tags (tags h)) as [tags' o]. cbn [fst id start stop elapsedTimes tags] in *.
  repeat split.
  - rewrite fix_elapsed_times_stream. apply length_elapsed_stream.
  - symmetry. eapply Forall2_length. exact Hpoint.
  - destruct (Forall2_lookup_lr _ _ _ _ _ _ Hpoint H H0) as [->| ->];
      [reflexivity | apply fix_tag_keeps].
  - destruct (Forall2_lookup_lr _ _ _ _ _ _ Hpoint H H0) as [->| ->];
      [reflexivity | apply fix_tag_keeps].
  - destruct (Forall2_lookup_lr _ _ _ _ _ _ Hpoint H H0) as [->| ->];
      [reflexivity | apply fix_tag_keeps].
  - intros Hn Hb.
    destruct (Forall2_lookup_lr _ _ _ _ _ _ Hpoint H H0) as [->| ->];
      [reflexivity | now apply fix_tag_keeps].
Qed.

Lemma fix_history_keeps_witness :
  values (mkHistoryTag "state" (TypeName "string") [0; 2]
            (map Plain [VStr "run"; VStr "stop"]))
  = map Plain [VStr "run"; VStr "stop"].
Proof.
  pose proof (fix_history_keeps
                (mkAdaptiveHistory "job" 0 0 [0; 10; 0]
                   [mkHistoryTag "state" (TypeName "string") [0; 2]
                      (map Plain [VStr "run"; VStr "stop"])])) as H.
  cbv zeta in H. destruct H as (_ & _ & _ & _ & _ & Htags).
  destruct (Htags 0%nat _ _ eq_refl eq_refl) as (_ & _ & _ & Hvalues).
  exact (Hvalues eq_refl eq_refl).
Defined.

Lemma increasing_cons2 x y l :
  increasing (x :: y :: l) <-> x < y /\ increasing (y :: l).
Proof. reflexivity. Qed.

Lemma increasing_index_stream prev e rest :
  increasing (index_stream prev (e :: rest)) <-> Forall (fun d => 0 < d) rest.
Proof.
  revert prev e; induction rest as [|e' rest IH]; intros prev e.
  - simpl. split; intros _; [constructor | exact I].
  - specialize (IH (prev + e) e').
    cbn [index_stream] in IH |- *.
    rewrite increasing_cons2, Forall_cons, IH.
    split; intros [Hlt Hrest]; (split; [lia | exact Hrest]).
Qed.

(** X8.  The recorded indexes of a tag are decoded to the running sums of the
    wire deltas, so their first difference is the wire list; they are
    strictly increasing exactly when every wire delta after the first is
    positive. *)
Theorem fix_elapsed_indexes_decoding (wire : list Z) :
  length (fix_elapsed_indexes wire) = length wire /\
  first_difference (fix_elapsed_indexes wire) = wire /\
  (forall i : nat, (i < length wire)%nat ->
     fix_elapsed_indexes wire !! i = Some (total (take (S i) wire))) /\
  (increasing (fix_elapsed_indexes wire) <-> Forall (fun d => 0 < d) (tail wire)).
Proof.
  rewrite fix_elapsed_indexes_stream. repeat split.
  - apply length_index_stream.
  - apply difference_index_stream.
  - intros i Hi. rewrite lookup_index_stream by exact Hi. f_equal; lia.
  - destruct wire as [|e rest]; [intros _; constructor|].
    apply increasing_index_stream.
  - destruct wire as [|e rest]; [intros _; exact I|].
    apply increasing_index_stream.
Qed.

Lemma fix_elapsed_indexes_decoding_witness :
  fix_elapsed_indexes [3; 0; 2] !! 1%nat = Some (total (take 2 [3; 0; 2])) /\
  ~ increasing (fix_elapsed_indexes [3; 0; 2]).
Proof.
  destruct (fix_elapsed_indexes_decoding [3; 0; 2]) as (_ & _ & Hsum & Hinc).
  split.
  - apply Hsum. simpl. lia.
  - intros H. apply Hinc in H. inversion H. lia.
Defined.

(** Where the value loop stops: the values before the first non-number
    are decoded, the rest is left as it was. *)
Lemma number_stream_partial vs :
  forall prev e,
    snd (number_stream prev vs) = Some e ->
    exists good bad rest sum,
      vs = good ++ bad :: rest /\
      Forall (fun v => is_number v = true) good /\
      running_sum prev good = Ok sum /\
      py_add sum bad = Raise e /\
      fst (number_stream prev vs) = fst (number_stream prev good) ++ bad :: rest.
Proof.
  induction vs as [|v vs IH]; intros prev e; cbn [number_stream];
    [discriminate|].
  pose proof (py_add_outcome prev v) as Hnumber.
  destruct (py_add prev v) as [value|e'] eqn:Hadd.
  - specialize (IH value e).
    destruct (number_stream value vs) as [rest' o] eqn:Hrest. cbn [fst snd] in *.
    intros Ho.
    destruct (IH Ho) as (good & bad & rest & sum & -> & Hgood & Hsum & Hbad & Hfst).
    exists (v :: good), bad, rest, sum. repeat split.
    + constructor; [exact Hnumber | exact Hgood].
    + cbn [running_sum]. rewrite Hadd. exact Hsum.
    + exact Hbad.
    + cbn [number_stream]. rewrite Hadd.
      destruct (number_stream value good) as [good' o']. cbn [fst] in *.
      now rewrite Hfst.
  - cbn [snd]. intros Ho. inversion Ho; subst e'.
    exists [], v, vs, prev. repeat split; [constructor | exact Hadd].
Qed.

Lemma fix_tag_partial tag e :
  snd (fix_tag tag) = Some e ->
  is_number_kind tag = true /\
  exists good bad rest sum,
    values tag = good ++ bad :: rest /\
    Forall (fun v => is_number v = true) good /\
    running_sum (NInt 0) good = Ok sum /\
    py_add sum bad = Raise e /\
    fst (fix_tag tag)
    = mkHistoryTag (name tag) (type tag) (fix_elapsed_indexes (elapsedIndexes tag))
        (fst (fix_number_values good) ++ bad :: rest).
Proof.
  unfold is_number_kind, fix_tag.
  destruct (type_is (type tag) "number" || type_is (type tag) "date").
  - rewrite fix_number_values_stream.
    pose proof (number_stream_partial (values tag) (NInt 0) e) as Hpartial.
    destruct (number_stream (NInt 0) (values tag)) as [values' o].
    cbn [fst snd] in *.
    intros Ho. split; [reflexivity|].
    destruct (Hpartial Ho)
      as (good & bad & rest & sum & Hvs & Hgood & Hsum & Hbad & Hfst).
    exists good, bad, rest, sum. rewrite fix_number_values_stream.
    repeat split; try assumption. now rewrite Hfst.
  - destruct (type_is (type tag) "boolean"); [destruct (values tag)|];
      discriminate.
Qed.

Lemma fix_tags_partial l e :
  snd (fix_tags l) = Some e ->
  exists before tag after,
    l = before ++ tag :: after /\
    Forall (fun t => snd (fix_tag t) = None) before /\
    snd (fix_tag tag) = Some e /\
    fst (fix_tags l)
    = map (fun t => fst (fix_tag t)) before ++ fst (fix_tag tag) :: after.
Proof.
  induction l as [|tag rest IH]; simpl; [discriminate|].
  destruct (fix_tag tag) as [tag' [e'|]] eqn:Htag; cbn [fst snd].
  - intros H. inversion H; subst e'.
    exists [], tag, rest. rewrite Htag. repeat split. constructor.
  - destruct (fix_tags rest) as [rest' o]. cbn [fst snd] in *.
    intros Ho. destruct (IH Ho) as (before & t & after & -> & Hbefore & Ht & Hfst).
    exists (tag :: before), t, after. repeat split.
    + constructor; [now rewrite Htag | exact Hbefore].
    + exact Ht.
    + cbn [map app]. now rewrite Htag, Hfst.
Qed.

(** X9.  When the decode raises, it raises the exception of the first
    addition that fails, in a number or date tag: a [TypeError] exactly
    when the value met is not a number, and otherwise the [OverflowError]
    of an int too large for the float it is added to.  The elapsed times
    and the tags before that tag are decoded; that tag has its indexes
    decoded and its values decoded up to the offending one; the tags after
    it are left in wire form. *)
Theorem fix_history_partial (h : AdaptiveHistory) (e : exn) :
  snd (_fix_history h) = Some e ->
  (e = TypeError \/ e = OverflowError) /\
  elapsedTimes (fst (_fix_history h)) = fix_elapsed_times (elapsedTimes h) /\
  exists before tag after good bad rest sum,
    tags h = before ++ tag :: after /\
    Forall (fun t => snd (fix_tag t) = None) before /\
    is_number_kind tag = true /\
    values tag = good ++ bad :: rest /\
    Forall (fun v => is_number v = true) good /\
    running_sum (NInt 0) good = Ok sum /\
    py_add sum bad = Raise e /\
    (e = TypeError <-> is_number bad = false) /\
    tags (fst (_fix_history h))
    = map (fun t => fst (fix_tag t)) before
      ++ mkHistoryTag (name tag) (type tag)
           (fix_elapsed_indexes (elapsedIndexes tag))
           (fst (fix_number_values good) ++ bad :: rest)
      :: after.
Proof.
  unfold _fix_history.
  pose proof (fix_tags_partial (tags h) e) as Hpartial.
  destruct (fix_tags (tags h)) as [tags' o]. cbn [fst snd elapsedTimes tags] in *.
  intros Ho.
  destruct (Hpartial Ho) as (before & tag & after & Hl & Hbefore & Htag & Hfst).
  destruct (fix_tag_partial tag e Htag)
    as (Hkind & good & bad & rest & sum & Hvs & Hgood & Hsum & Hbad & Hdecoded).
  pose proof (py_add_outcome sum bad) as Hwhy. rewrite Hbad in Hwhy.
  split; [destruct Hwhy as [[-> _]|[-> _]]; auto|]. split; [reflexivity|].
  exists before, tag, after, good, bad, rest, sum.
  repeat split; try assumption.
  - intros ->. destruct Hwhy as [[_ H]|[H _]]; [exact H | discriminate].
  - intros Hno. destruct Hwhy as [[H _]|[_ H]]; [exact H | congruence].
  - now rewrite Hfst, Hdecoded.
Qed.

Lemma fix_history_partial_witness :
  let h := mkAdaptiveHistory "job" 0 0 [5; 5]
             [mkHistoryTag "temp" (TypeName "number") [0; 1; 1]
                [VFloat 0x1p-1; int_value (10 ^ 400); int_value 1];
              mkHistoryTag "flow" (TypeName "number") [0; 1]
                [int_value 1; Plain VNone]] in
  snd (_fix_history h) = Some OverflowError /\
  elapsedTimes (fst (_fix_history h)) = fix_elapsed_times [5; 5].
Proof.
  cbv zeta.
  assert (Hraises :
    snd (_fix_history
           (mkAdaptiveHistory "job" 0 0 [5; 5]
              [mkHistoryTag "temp" (TypeName "number") [0; 1; 1]
                 [VFloat 0x1p-1; int_value (10 ^ 400); int_value 1];
               mkHistoryTag "flow" (TypeName "number") [0; 1]
                 [int_value 1; Plain VNone]]))
    = Some OverflowError) by (vm_compute; reflexivity).
  split; [exact Hraises|].
  exact (proj1 (proj2 (fix_history_partial _ OverflowError Hraises))).
Defined.

(** ** The table *)

Section TableFacts.

Variable float_text : float -> string.

Lemma rows_from_shape time_cell h elapsed :
  forall i st rows,
    rows_from float_text time_cell h i elapsed st = Ok rows ->
    forall (r : nat) row,
      rows !! r = Some row ->
      exists e stamp cells,
        elapsed !! r = Some e /\
        time_cell (start h) e = Ok stamp /\
        length cells = length (tags h) /\
        row = str_int e :: stamp :: cells.
Proof.
  induction elapsed as [|t rest IH]; intros i st rows Hrows r row Hrow.
  - simpl in Hrows. inversion Hrows; subst. rewrite lookup_nil in Hrow. discriminate.
  - cbn [rows_from] in Hrows.
    destruct (time_cell (start h) t) as [stamp|e] eqn:Hstamp; [|discriminate].
    cbn [bind] in Hrows.
    destruct (tag_cells float_text i 0 (tags h) st)
      as [[cells st1]|e] eqn:Hcells; [|discriminate].
    cbn [bind fst snd] in Hrows.
    destruct (rows_from float_text time_cell h (S i) rest st1)
      as [rows1|e] eqn:Hrest; [|discriminate].
    cbn [bind] in Hrows. inversion Hrows; subst rows. clear Hrows.
    destruct r as [|r].
    + simpl in Hrow. inversion Hrow; subst row.
      exists t, stamp, cells. repeat split; try assumption.
      now destruct (tag_cells_lengths _ _ _ _ _ _ _ Hcells) as (Hlen & _).
    + simpl in Hrow. exact (IH _ _ _ Hrest r row Hrow).
Qed.

(** X10.  Every row of the table has the width of the header: the elapsed time
    as decimal text, the time stamp rendered for it, and one cell per
    tag. *)
Theorem history_rows_shape
    (time_cell : datetime -> Z -> result string) (h : AdaptiveHistory)
    (rows : list (list string)) :
  history_rows float_text time_cell h = Ok rows ->
  forall (r : nat) row,
    rows !! r = Some row ->
    length row = length (header h) /\
    exists e stamp,
      elapsedTimes h !! r = Some e /\
      time_cell (start h) e = Ok stamp /\
      row !! 0%nat = Some (str_int e) /\
      row !! 1%nat = Some stamp.
Proof.
  unfold history_rows. intros Hrows r row Hrow.
  destruct (rows_from_shape _ _ _ _ _ _ Hrows r row Hrow)
    as (e & stamp & cells & He & Hstamp & Hlen & ->).
  split.
  - unfold header. cbn [length]. now rewrite Hlen, length_map.
  - exists e, stamp. repeat split; assumption.
Qed.

(** A column read off the rows. *)
Lemma column_lookup (f : list string -> option string) rows :
  forall col (r : nat) row,
    map f rows = map Some col ->
    rows !! r = Some row ->
    exists c, col !! r = Some c /\ f row = Some c.
Proof.
  induction rows as [|row0 rows IH]; intros col r row Hmap Hrow.
  - rewrite lookup_nil in Hrow. discriminate.
  - destruct col as [|c col]; [discriminate|].
    cbn [map] in Hmap. inversion Hmap as [[Hc Hrest]].
    destruct r as [|r]; simpl in Hrow.
    + inversion Hrow; subst. exists c. split; [reflexivity | exact Hc].
    + exact (IH col r row Hrest Hrow).
Qed.

Lemma next_index_is_true tag ptr i :
  next_index_is tag ptr i = true <-> elapsedIndexes tag !! ptr = Some (Z.of_nat i).
Proof.
  unfold next_index_is. destruct (elapsedIndexes tag !! ptr) as [index|].
  - rewrite Z.eqb_eq. split; intros H; congruence.
  - split; discriminate.
Qed.

(** A cursor that matches none of the remaining rows never moves. *)
Lemma forward_fill_stuck tag n :
  forall i last ptr,
    (forall i' : nat, (i <= i' < i + n)%nat -> next_index_is tag ptr i' = false) ->
    forward_fill float_text tag i n last ptr
    = replicate n (cell_text float_text last).
Proof.
  induction n as [|n IH]; intros i last ptr Hstuck; [reflexivity|].
  cbn [forward_fill replicate]. rewrite (Hstuck i) by lia.
  f_equal. apply IH. intros i' Hi'. apply Hstuck. lia.
Qed.

(** X11.  A tag with no recorded index, or whose first decoded index is negative
    or not below the number of rows, has an entirely empty column,
    whatever its values are. *)
Theorem empty_column
    (time_cell : datetime -> Z -> result string) (h : AdaptiveHistory)
    (rows : list (list string)) (k : nat) (tag : HistoryTag) :
  history_rows float_text time_cell h = Ok rows ->
  tags h !! k = Some tag ->
  (forall index, elapsedIndexes tag !! 0%nat = Some index ->
     index < 0 \/ Z.of_nat (length (elapsedTimes h)) <= index) ->
  forall (r : nat) row, rows !! r = Some row -> row !! (2 + k)%nat = Some ""%string.
Proof.
  unfold history_rows. intros Hrows Hk Hfirst r row Hrow.
  destruct (rows_from_columns _ _ _ _ _ _ _ Hrows) as [_ Hcols].
  destruct (initial_cursors_lookup (length (tags h)) k) as [Hptr Hlast].
  { eapply lookup_lt_Some. exact Hk. }
  specialize (Hcols k tag 0%nat (Plain VNone) Hk Hptr Hlast).
  rewrite forward_fill_stuck in Hcols.
  - destruct (column_lookup _ _ _ _ _ Hcols Hrow) as (c & Hc & Hcell).
    apply lookup_replicate in Hc. destruct Hc as [-> _]. exact Hcell.
  - intros i' Hi'. destruct (next_index_is tag 0 i') eqn:Hnext; [|reflexivity].
    apply next_index_is_true in Hnext. destruct (Hfirst _ Hnext); lia.
Qed.

(** The cells of a well-formed tag from row [i] on, when the cursor [ptr]
    separates the indexes below [i] from the others: a row before the next
    recorded index shows the last value, and a row at or after a recorded
    index and before the following one shows the value recorded there. *)
Lemma forward_fill_cells tag :
  well_formed tag ->
  forall n i ptr last,
    (forall (j : nat) index,
       elapsedIndexes tag !! j = Some index ->
       ((j < ptr)%nat -> index < Z.of_nat i) /\
       ((ptr <= j)%nat -> Z.of_nat i <= index)) ->
    forall k : nat, (k < n)%nat ->
      ((forall (j : nat) index,
          (ptr <= j)%nat -> elapsedIndexes tag !! j = Some index ->
          Z.of_nat (i + k) < index) ->
       forward_fill float_text tag i n last ptr !! k
       = Some (cell_text float_text last)) /\
      (forall (j : nat) index v,
         (ptr <= j)%nat ->
         elapsedIndexes tag !! j = Some index ->
         values tag !! j = Some v ->
         index <= Z.of_nat (i + k) ->
         (forall index', elapsedIndexes tag !! S j = Some index' ->
                         Z.of_nat (i + k) < index') ->
         forward_fill float_text tag i n last ptr !! k
         = Some (cell_text float_text v)).
Proof.
  intros (Hpos & Hinc & Hlen).
  induction n as [|n IH]; intros i ptr last Hinv k Hk; [lia|].
  cbn [forward_fill].
  destruct (next_index_is tag ptr i) eqn:Hnext.
  - apply next_index_is_true in Hnext.
    destruct (lookup_lt_is_Some_2 (values tag) ptr) as [v0 Hv0].
    { apply lookup_lt_Some in Hnext. lia. }
    rewrite Hv0.
    assert (Hinv' : forall (j : nat) index,
               elapsedIndexes tag !! j = Some index ->
               ((j < S ptr)%nat -> index < Z.of_nat (S i)) /\
               ((S ptr <= j)%nat -> Z.of_nat (S i) <= index)).
    { intros j index Hj. split; intros Hcmp.
      - destruct (decide (j = ptr)) as [->|Hne].
        + assert (index = Z.of_nat i) by congruence. lia.
        + destruct (Hinv j index Hj) as [Hlt _]. specialize (Hlt ltac:(lia)). lia.
      - pose proof (Hinc ptr j _ _ ltac:(lia) Hnext Hj). lia. }
    split.
    + intros Hlater. pose proof (Hlater ptr _ ltac:(lia) Hnext). lia.
    + intros j index v Hj Hindex Hv Hle Hnextidx.
      destruct k as [|k].
      * rewrite Nat.add_0_r in *.
        assert (j = ptr) as ->.
        { destruct (decide (j = ptr)) as [|Hne]; [assumption|].
          pose proof (Hinc ptr j _ _ ltac:(lia) Hnext Hindex). lia. }
        simpl. congruence.
      * replace (i + S k)%nat with (S i + k)%nat in * by lia.
        cbn [lookup list_lookup].
        change ((cell_text float_text v0
                 :: forward_fill float_text tag (S i) n v0 (S ptr)) !! S k)
          with (forward_fill float_text tag (S i) n v0 (S ptr) !! k).
        destruct (IH (S i) (S ptr) v0 Hinv' k ltac:(lia)) as [Hnone Hsome].
        destruct (decide (j = ptr)) as [->|Hne].
        -- assert (v = v0) by congruence. subst v.
           apply Hnone. intros j' index' Hj' Hindex'.
           destruct (decide (j' = S ptr)) as [->|Hne'].
           ++ now apply Hnextidx.
           ++ destruct (lookup_lt_is_Some_2 (elapsedIndexes tag) (S ptr))
                as [mid Hmid].
              { apply lookup_lt_Some in Hindex'. lia. }
              pose proof (Hnextidx _ Hmid).
              pose proof (Hinc (S ptr) j' _ _ ltac:(lia) Hmid Hindex'). lia.
        -- apply (Hsome j index v); try assumption. lia.
  - assert (Hahead : forall (j : nat) index,
               (ptr <= j)%nat -> elapsedIndexes tag !! j = Some index ->
               Z.of_nat (S i) <= index).
    { intros j index Hj Hindex.
      destruct (lookup_lt_is_Some_2 (elapsedIndexes tag) ptr) as [first Hfirst].
      { apply lookup_lt_Some in Hindex. lia. }
      assert (first <> Z.of_nat i).
      { intros ->. apply next_index_is_true in Hfirst. congruence. }
      destruct (Hinv ptr first Hfirst) as [_ Hge]. specialize (Hge ltac:(lia)).
      destruct (decide (j = ptr)) as [->|Hne].
      - assert (index = first) by congruence. lia.
      - pose proof (Hinc ptr j _ _ ltac:(lia) Hfirst Hindex). lia. }
    assert (Hinv' : forall (j : nat) index,
               elapsedIndexes tag !! j = Some index ->
               ((j < ptr)%nat -> index < Z.of_nat (S i)) /\
               ((ptr <= j)%nat -> Z.of_nat (S i) <= index)).
    { intros j index Hj. split; intros Hcmp.
      - destruct (Hinv j index Hj) as [Hlt _]. specialize (Hlt Hcmp). lia.
      - now apply (Hahead j). }
    destruct k as [|k].
    + rewrite Nat.add_0_r. split; [reflexivity|].
      intros j index v Hj Hindex Hv Hle _.
      pose proof (Hahead j index Hj Hindex). lia.
    + replace (i + S k)%nat with (S i + k)%nat by lia.
      change ((cell_text float_text last
               :: forward_fill float_text tag (S i) n last ptr) !! S k)
        with (forward_fill float_text tag (S i) n last ptr !! k).
      exact (IH (S i) ptr last Hinv' k ltac:(lia)).
Qed.

(** X12.  Forward fill: in the column of a well-formed tag, a row before the
    first recorded index is empty, and a row at or after a recorded index
    and before the next one shows the value recorded at that index. *)
Theorem table_shows_latest_value
    (time_cell : datetime -> Z -> result string) (h : AdaptiveHistory)
    (rows : list (list string)) (k : nat) (tag : HistoryTag) :
  history_rows float_text time_cell h = Ok rows ->
  tags h !! k = Some tag ->
  well_formed tag ->
  forall (r : nat) row,
    rows !! r = Some row ->
    ((forall (j : nat) index,
        elapsedIndexes tag !! j = Some index -> Z.of_nat r < index) ->
     row !! (2 + k)%nat = Some ""%string) /\
    (forall (j : nat) index v,
       elapsedIndexes tag !! j = Some index ->
       values tag !! j = Some v ->
       index <= Z.of_nat r ->
       (forall index', elapsedIndexes tag !! S j = Some index' ->
                       Z.of_nat r < index') ->
       row !! (2 + k)%nat = Some (cell_text float_text v)).
Proof.
  unfold history_rows. intros Hrows Hk Hwf r row Hrow.
  destruct (rows_from_columns _ _ _ _ _ _ _ Hrows) as [Hlen Hcols].
  destruct (initial_cursors_lookup (length (tags h)) k) as [Hptr Hlast].
  { eapply lookup_lt_Some. exact Hk. }
  specialize (Hcols k tag 0%nat (Plain VNone) Hk Hptr Hlast).
  destruct (column_lookup _ _ _ _ _ Hcols Hrow) as (c & Hc & Hcell).
  assert (Hr : (r < length (elapsedTimes h))%nat).
  { rewrite <- Hlen. eapply lookup_lt_Some. exact Hrow. }
  destruct (forward_fill_cells tag Hwf (length (elapsedTimes h)) 0%nat 0%nat
              (Plain VNone))
    with (k := r) as [Hnone Hsome]; [|exact Hr|].
  { intros j index Hj. split; [lia|]. intros _.
    destruct Hwf as (Hpos & _). simpl. now apply (Hpos j). }
  cbn [Nat.add] in Hnone, Hsome. split.
  - intros Hlater. rewrite Hnone in Hc.
    + now inversion Hc; subst.
    + intros j index _ Hindex. now apply (Hlater j).
  - intros j index v Hindex Hv Hle Hnextidx.
    rewrite (Hsome j index v) in Hc; try assumption; [|lia].
    now inversion Hc; subst.
Qed.

End TableFacts.

Lemma history_rows_shape_witness :
  length ["10"; "10"; "5"]%string
  = length (header (mkAdaptiveHistory "job" 0 0 [0; 10; 20]
                      [mkHistoryTag "temp" (TypeName "number") [1]
                         [int_value 5]])).
Proof.
  refine (proj1 (history_rows_shape (fun _ => "0.0"%string)
                   (fun _ e => Ok (str_int e))
                   (mkAdaptiveHistory "job" 0 0 [0; 10; 20]
                      [mkHistoryTag "temp" (TypeName "number") [1]
                         [int_value 5]])
                   _ eq_refl 1%nat _ eq_refl)).
Defined.

Lemma empty_column_witness :
  ["10"; "10"; ""]%string !! 2%nat = Some ""%string.
Proof.
  refine (empty_column (fun _ => "0.0"%string) (fun _ e => Ok (str_int e))
            (mkAdaptiveHistory "job" 0 0 [0; 10]
               [mkHistoryTag "temp" (TypeName "number") [-1; 0; 1]
                  (map int_value [5; 6; 7])])
            _ 0%nat _ eq_refl eq_refl _ 1%nat _ eq_refl).
  intros index Hindex. inversion Hindex; subst. left. lia.
Defined.

Lemma table_shows_latest_value_witness :
  ["20"; "20"; "5"]%string !! 2%nat
  = Some (cell_text (fun _ => "0.0"%string) (int_value 5)).
Proof.
  refine (proj2 (table_shows_latest_value (fun _ => "0.0"%string)
                   (fun _ e => Ok (str_int e))
                   (mkAdaptiveHistory "job" 0 0 [0; 10; 20; 30]
                      [mkHistoryTag "temp" (TypeName "number") [1; 3]
                         (map int_value [5; 9])])
                   _ 0%nat _ eq_refl eq_refl _ 2%nat _ eq_refl)
            0%nat 1 (int_value 5) eq_refl eq_refl _ _).
  - repeat split.
    + intros [|[|j]] index Hj; simpl in Hj; inversion Hj; lia.
    + intros [|[|j1]] [|[|j2]] a b Hlt Ha Hb; simpl in Ha, Hb;
        inversion Ha; inversion Hb; lia.
    + simpl. lia.
  - lia.
  - intros index' Hnext. simpl in Hnext. inversion Hnext. lia.
Defined.

(** ** From the decoder to the tabulator *)

Lemma fix_tag_indexes tag :
  elapsedIndexes (fst (fix_tag tag)) = fix_elapsed_indexes (elapsedIndexes tag).
Proof.
  unfold fix_tag.
  destruct (type_is (type tag) "number" || type_is (type tag) "date").
  - now destruct (fix_number_values (values tag)).
  - destruct (type_is (type tag) "boolean"); [destruct (values tag)|]; reflexivity.
Qed.

Lemma increasing_pairwise l :
  increasing l ->
  forall (j1 j2 : nat) a b,
    (j1 < j2)%nat -> l !! j1 = Some a -> l !! j2 = Some b -> a < b.
Proof.
  induction l as [|x l IH]; intros Hinc j1 j2 a b Hlt Ha Hb.
  - rewrite lookup_nil in Ha. discriminate.
  - destruct l as [|y l].
    + destruct j2 as [|j2]; [lia|]. simpl in Hb. rewrite lookup_nil in Hb.
      discriminate.
    + apply increasing_cons2 in Hinc. destruct Hinc as [Hxy Hrest].
      destruct j1 as [|j1], j2 as [|j2]; try lia; simpl in Ha, Hb.
      * inversion Ha; subst a. destruct j2 as [|j2].
        -- simpl in Hb. inversion Hb; subst. exact Hxy.
        -- pose proof (IH Hrest 0%nat (S j2) y b ltac:(lia) eq_refl Hb). lia.
      * apply (IH Hrest j1 j2 a b); [lia | exact Ha | exact Hb].
Qed.

(** X13.  A tag sent with a non-negative first index delta, positive later
    deltas and enough values (for a boolean tag: an initial value, unless
    it has no index at all) is decoded to a tag as the tabulator expects
    it. *)
Theorem decoded_tag_well_formed (tag : HistoryTag) :
  (forall d0 rest, elapsedIndexes tag = d0 :: rest ->
                   0 <= d0 /\ Forall (fun d => 0 < d) rest) ->
  (if is_boolean_kind tag
   then values tag <> [] \/ elapsedIndexes tag = []
   else (length (elapsedIndexes tag) <= length (values tag))%nat) ->
  well_formed (fst (fix_tag tag)).
Proof.
  intros Hdeltas Hvalues. unfold well_formed.
  rewrite fix_tag_indexes.
  destruct (fix_elapsed_indexes_decoding (elapsedIndexes tag))
    as (Hlen & _ & _ & Hinc).
  assert (Hpair : forall (j1 j2 : nat) a b,
             (j1 < j2)%nat ->
             fix_elapsed_indexes (elapsedIndexes tag) !! j1 = Some a ->
             fix_elapsed_indexes (elapsedIndexes tag) !! j2 = Some b ->
             a < b).
  { apply increasing_pairwise, Hinc.
    destruct (elapsedIndexes tag) as [|d0 rest] eqn:Hwire; [constructor|].
    now destruct (Hdeltas d0 rest eq_refl). }
  split; [|split; [exact Hpair|]].
  - intros j index Hj.
    destruct (elapsedIndexes tag) as [|d0 rest] eqn:Hwire.
    + rewrite fix_elapsed_indexes_stream in Hj. simpl in Hj.
      rewrite lookup_nil in Hj. discriminate.
    + destruct (Hdeltas d0 rest eq_refl) as [Hd0 _].
      assert (Hfirst : fix_elapsed_indexes (d0 :: rest) !! 0%nat = Some d0).
      { rewrite fix_elapsed_indexes_stream. simpl. f_equal; lia. }
      destruct j as [|j].
      * assert (index = d0) by congruence. lia.
      * pose proof (Hpair 0%nat (S j) _ _ ltac:(lia) Hfirst Hj). lia.
  - rewrite Hlen.
    destruct (fix_tag_lengths tag) as [_ Hkeep].
    destruct (is_boolean_kind tag) eqn:Hbool.
    + destruct (values tag) as [|v0 more] eqn:Hvs.
      * rewrite Hkeep by (right; reflexivity).
        destruct Hvalues as [H|H]; [congruence | rewrite H; simpl; lia].
      * pose proof (boolean_kind_not_number_kind tag Hbool) as Hnum.
        unfold is_boolean_kind, is_number_kind in *.
        fix_tag_streams. rewrite Hnum, Hbool, Hvs. cbn [fst values].
        rewrite length_expanded_values, length_index_stream. lia.
    + rewrite Hkeep by (left; reflexivity). exact Hvalues.
Qed.

Lemma decoded_tag_well_formed_witness :
  well_formed (fst (fix_tag (mkHistoryTag "door" (TypeName "boolean") [0; 2; 1]
                              [Plain (VBool true)]))).
Proof.
  apply decoded_tag_well_formed.
  - intros d0 rest H. inversion H; subst. split; [lia|].
    repeat constructor.
  - left. discriminate.
Defined.

(** ** The run of a boolean tag in closed form *)

Lemma alternate_lookup v k (i : nat) :
  (i < k)%nat ->
  alternate v k !! i
  = Some (Plain (VBool (if Nat.even i then negb (py_truth v) else py_truth v))).
Proof.
  revert v i; induction k as [|k IH]; intros v i Hi; [lia|].
  cbn [alternate]. destruct i as [|i]; [reflexivity|].
  rewrite lookup_cons. cbn match. rewrite IH by lia.
  cbn [py_not py_truth]. rewrite Nat.even_succ, <- Nat.negb_even.
  destruct (Nat.even i); cbn [negb]; rewrite ?negb_involutive; reflexivity.
Qed.

(** X14.  After the first entry, which is the wire value itself, the decoded
    values of a boolean tag are genuine booleans fixed by the truth value
    of the wire value and the parity of the position: its negation at odd
    positions, the truth value itself at even ones. *)
Theorem boolean_values_closed_form (tag : HistoryTag) (v0 : value)
    (more : list value) (i : nat) :
  is_boolean_kind tag = true ->
  values tag = v0 :: more ->
  (1 <= i < length (elapsedIndexes tag))%nat ->
  values (fst (fix_tag tag)) !! i
  = Some (Plain (VBool (if Nat.odd i then negb (py_truth v0) else py_truth v0))).
Proof.
  intros Hbool Hvalues Hi.
  pose proof (boolean_kind_not_number_kind tag Hbool) as Hnum.
  unfold is_boolean_kind, is_number_kind in *.
  fix_tag_streams. rewrite Hnum, Hbool, Hvalues. cbn [fst values].
  rewrite length_index_stream. unfold expanded_values.
  destruct i as [|i]; [lia|].
  rewrite lookup_cons. cbn match. rewrite alternate_lookup by lia.
  now rewrite Nat.odd_succ.
Qed.

Lemma boolean_values_closed_form_witness :
  values (fst (fix_tag (mkHistoryTag "door" (TypeName "boolean") [0; 2; 1]
                          [int_value 1]))) !! 2%nat
  = Some (Plain (VBool true)).
Proof.
  apply (boolean_values_closed_form
           (mkHistoryTag "door" (TypeName "boolean") [0; 2; 1] [int_value 1])
           (int_value 1) [] 2%nat); [reflexivity | reflexivity | simpl; lia].
Defined.

(** ** Contrasting colours *)

Lemma land_byte_mask rgb (k : Z) :
  0 <= k ->
  Z.land rgb (Z.shiftl 255 k) / 2 ^ k = (rgb / 2 ^ k) mod 256.
Proof.
  intros Hk.
  rewrite <- !Z.shiftr_div_pow2 by exact Hk.
  change 256 with (2 ^ 8). rewrite <- Z.land_ones by lia.
  apply Z.bits_inj'. intros n Hn.
  rewrite Z.shiftr_spec, !Z.land_spec, Z.shiftr_spec by exact Hn.
  f_equal. rewrite Z.shiftl_spec by lia.
  change 255 with (Z.ones 8). f_equal. lia.
Qed.

Lemma channels_bytes rgb :
  channels rgb = ((rgb / 65536) mod 256, (rgb / 256) mod 256, rgb mod 256).
Proof.
  unfold channels.
  pose proof (land_byte_mask rgb 16 ltac:(lia)) as Hr.
  pose proof (land_byte_mask rgb 8 ltac:(lia)) as Hg.
  pose proof (land_byte_mask rgb 0 ltac:(lia)) as Hb.
  change (Z.shiftl 255 16) with 0xff0000 in Hr.
  change (Z.shiftl 255 8) with 0xff00 in Hg.
  change (Z.shiftl 255 0) with 0xff in Hb.
  change (2 ^ 16) with 65536 in Hr. change (2 ^ 8) with 256 in Hg.
  change (2 ^ 0) with 1 in Hb. rewrite !Z.div_1_r in Hb.
  now rewrite Hr, Hg, Hb.
Qed.

(** X15.  The masks and divisions of [contrasting_color] read three bytes of the
    number: the channels are bits 16-23, 8-15 and 0-7, each between 0 and
    255, and every higher bit of the number is ignored, as is its sign. *)
Theorem channels_are_bytes (rgb : Z) :
  channels rgb = ((rgb / 65536) mod 256, (rgb / 256) mod 256, rgb mod 256) /\
  (forall k : Z, channels (rgb + k * 16777216) = channels rgb) /\
  (let '(r, g, b) := channels rgb in
   0 <= r < 256 /\ 0 <= g < 256 /\ 0 <= b < 256).
Proof.
  split; [apply channels_bytes|]. split.
  - intros k. rewrite !channels_bytes.
    assert (Hr : ((rgb + k * 16777216) / 65536) mod 256 = (rgb / 65536) mod 256)
      by (Z.div_mod_to_equations; lia).
    assert (Hg : ((rgb + k * 16777216) / 256) mod 256 = (rgb / 256) mod 256)
      by (Z.div_mod_to_equations; lia).
    assert (Hb : (rgb + k * 16777216) mod 256 = rgb mod 256)
      by (Z.div_mod_to_equations; lia).
    now rewrite Hr, Hg, Hb.
  - rewrite channels_bytes. repeat split; Z.div_mod_to_equations; lia.
Qed.

Lemma hex_value_hex1 d : 0 <= d < 16 -> hex_value (hex1 d) = Some d.
Proof.
  intros Hd. destruct d as [|p|p]; [reflexivity| |lia].
  repeat (destruct p as [p|p|]; try lia; try reflexivity).
Qed.

Lemma hex_digits_hex2 acc after_digit n s :
  0 <= n < 256 ->
  hex_digits acc after_digit (hex2 n ++ s) = hex_digits (256 * acc + n) true s.
Proof.
  intros Hn. unfold hex2.
  change (hex_digits acc after_digit
            (String (hex1 (n / 16)) (String (hex1 (n mod 16)) s))
          = hex_digits (256 * acc + n) true s).
  cbn [hex_digits].
  rewrite !hex_value_hex1 by (Z.div_mod_to_equations; lia).
  f_equal. Z.div_mod_to_equations; lia.
Qed.

(** A literal that starts with two of these digits has no white space, no
    sign and no prefix. *)
Lemma py_int16_digits d1 d2 s :
  0 <= d1 < 16 -> 0 <= d2 < 16 ->
  py_int16 (String (hex1 d1) (String (hex1 d2) s))
  = hex_digits 0 false (String (hex1 d1) (String (hex1 d2) s)).
Proof.
  intros H1 H2.
  destruct d1 as [|p|p]; [| |lia];
    [|repeat (destruct p as [p|p|]; try lia; try reflexivity)].
  destruct d2 as [|q|q]; [reflexivity| |lia].
  repeat (destruct q as [q|q|]; try lia; try reflexivity).
Qed.

Lemma py_int16_hex2 n s :
  0 <= n < 256 -> py_int16 (hex2 n ++ s) = hex_digits 0 false (hex2 n ++ s).
Proof.
  intros Hn. unfold hex2. cbn [String.append].
  apply py_int16_digits; Z.div_mod_to_equations; lia.
Qed.

Lemma hex2_zero n : 0 <= n < 256 -> hex2 n = "00"%string -> n = 0.
Proof.
  intros Hn Heq. unfold hex2 in Heq. injection Heq as H1 H2.
  assert (Hhi : hex_value (hex1 (n / 16)) = Some (n / 16))
    by (apply hex_value_hex1; Z.div_mod_to_equations; lia).
  assert (Hlo : hex_value (hex1 (n mod 16)) = Some (n mod 16))
    by (apply hex_value_hex1; Z.div_mod_to_equations; lia).
  rewrite H1 in Hhi. rewrite H2 in Hlo.
  change (hex_value "0"%char) with (Some 0) in Hhi, Hlo.
  assert (Hhi' : n / 16 = 0) by congruence.
  assert (Hlo' : n mod 16 = 0) by congruence.
  Z.div_mod_to_equations; lia.
Qed.

(** X16.  For a colour written [#rrggbb], the answer is black exactly when
    [299 r + 587 g + 114 b] exceeds 130000, and white otherwise. *)
Theorem contrasting_color_rgb (r g b : Z) :
  0 <= r < 256 -> 0 <= g < 256 -> 0 <= b < 256 ->
  contrasting_color (String "#" (hex2 r ++ hex2 g ++ hex2 b))
  = Ok (if bright r g b then "#000000" else "#ffffff")%string.
Proof.
  intros Hr Hg Hb. unfold contrasting_color.
  destruct (String.eqb_spec (String "#" (hex2 r ++ hex2 g ++ hex2 b)) "#00000000")
    as [Heq|_].
  { apply (f_equal String.length) in Heq. discriminate Heq. }
  cbn [drop_first]. rewrite py_int16_hex2 by exact Hr.
  rewrite !hex_digits_hex2 by assumption.
  replace (hex2 b) with (hex2 b ++ "")%string
    by (unfold hex2; reflexivity).
  rewrite hex_digits_hex2 by assumption. cbn [hex_digits bind].
  unfold contrast_of, bright.
  rewrite channels_bytes.
  replace ((256 * (256 * (256 * 0 + r) + g) + b) / 65536 mod 256) with r
    by (Z.div_mod_to_equations; lia).
  replace ((256 * (256 * (256 * 0 + r) + g) + b) / 256 mod 256) with g
    by (Z.div_mod_to_equations; lia).
  replace ((256 * (256 * (256 * 0 + r) + g) + b) mod 256) with b
    by (Z.div_mod_to_equations; lia).
  reflexivity.
Qed.

Lemma contrasting_color_rgb_witness :
  contrasting_color "#ffff00" = Ok "#000000"%string.
Proof.
  apply (contrasting_color_rgb 255 255 0); lia.
Defined.

(** X17.  For a colour written with an alpha byte, [#rrggbbaa], other than
    [#00000000], the red byte is ignored and the answer is the one for the
    colour [#ggbbaa]: green is read as red, blue as green and alpha as
    blue. *)
Theorem contrasting_color_alpha (r g b a : Z) :
  0 <= r < 256 -> 0 <= g < 256 -> 0 <= b < 256 -> 0 <= a < 256 ->
  contrasting_color (String "#" (hex2 r ++ hex2 g ++ hex2 b ++ hex2 a))
  = Ok (if (r =? 0) && (g =? 0) && (b =? 0) && (a =? 0) then "#606060"%string
        else if bright g b a then "#000000"%string else "#ffffff"%string).
Proof.
  intros Hr Hg Hb Ha. unfold contrasting_color.
  destruct (String.eqb_spec
              (String "#" (hex2 r ++ hex2 g ++ hex2 b ++ hex2 a)) "#00000000")
    as [Heq|Hne].
  - inversion Heq as [[H1 H2 H3 H4 H5 H6 H7 H8]].
    assert (r = 0) as -> by (apply hex2_zero; [lia | unfold hex2; congruence]).
    assert (g = 0) as -> by (apply hex2_zero; [lia | unfold hex2; congruence]).
    assert (b = 0) as -> by (apply hex2_zero; [lia | unfold hex2; congruence]).
    assert (a = 0) as -> by (apply hex2_zero; [lia | unfold hex2; congruence]).
    reflexivity.
  - destruct ((r =? 0) && (g =? 0) && (b =? 0) && (a =? 0)) eqn:Hzero.
    { exfalso. apply Hne.
      repeat (apply andb_true_iff in Hzero; destruct Hzero as [Hzero ?]).
      repeat match goal with H : (_ =? 0) = true |- _ =>
               apply Z.eqb_eq in H; subst end.
      reflexivity. }
    cbn [drop_first]. rewrite py_int16_hex2 by exact Hr.
    rewrite !hex_digits_hex2 by assumption.
    replace (hex2 a) with (hex2 a ++ "")%string by (unfold hex2; reflexivity).
    rewrite hex_digits_hex2 by assumption. cbn [hex_digits bind].
    unfold contrast_of, bright. rewrite channels_bytes.
    replace ((256 * (256 * (256 * (256 * 0 + r) + g) + b) + a) / 65536 mod 256)
      with g by (Z.div_mod_to_equations; lia).
    replace ((256 * (256 * (256 * (256 * 0 + r) + g) + b) + a) / 256 mod 256)
      with b by (Z.div_mod_to_equations; lia).
    replace ((256 * (256 * (256 * (256 * 0 + r) + g) + b) + a) mod 256)
      with a by (Z.div_mod_to_equations; lia).
    reflexivity.
Qed.

Lemma contrasting_color_alpha_witness :
  contrasting_color "#ff000080" = Ok "#ffffff"%string.
Proof.
  apply (contrasting_color_alpha 255 0 0 128); lia.
Defined.

Lemma hex_digits_raises s :
  forall acc after_digit e, hex_digits acc after_digit s = Raise e -> e = ValueError.
Proof.
  induction s as [|c rest IH]; intros acc after_digit e; simpl.
  - destruct after_digit; congruence.
  - destruct (hex_value c) as [d|]; [apply IH|].
    destruct (Ascii.eqb c "_").
    + destruct after_digit; [apply IH | congruence].
    + destruct (is_space c && after_digit && all_space rest); congruence.
Qed.

Lemma hex_literal_raises s e : hex_literal s = Raise e -> e = ValueError.
Proof.
  unfold hex_literal.
  destruct s as [|c s']; [apply hex_digits_raises|].
  destruct (Ascii.eqb_spec c "0") as [->|Hc].
  - destruct s' as [|x rest]; [apply hex_digits_raises|].
    destruct (Ascii.eqb x "x" || Ascii.eqb x "X"); [|apply hex_digits_raises].
    destruct rest as [|u rest']; [apply hex_digits_raises|].
    destruct (Ascii.eqb_spec u "_") as [->|Hu]; [apply hex_digits_raises|].
    destruct u as [[] [] [] [] [] [] [] []];
      solve [congruence | apply hex_digits_raises].
  - destruct c as [[] [] [] [] [] [] [] []]; try congruence;
      destruct s' as [|x rest]; apply hex_digits_raises.
Qed.

Lemma py_int16_raises value e : py_int16 value = Raise e -> e = ValueError.
Proof.
  unfold py_int16.
  assert (Hneg : forall rest,
             (z <- hex_literal rest ;; Ok (- z)) = Raise e -> e = ValueError).
  { intros rest. destruct (hex_literal rest) as [z|e'] eqn:Hd; cbn [bind];
      [discriminate|].
    intros H. inversion H; subst. eapply hex_literal_raises. exact Hd. }
  destruct (lstrip value) as [|c rest]; [apply hex_literal_raises|].
  destruct c as [[] [] [] [] [] [] [] []];
    solve [apply hex_literal_raises | apply Hneg].
Qed.

(** X18.  [contrasting_color] never checks the first character nor the number of
    digits: it raises nothing but the [ValueError] of a text that is not a
    hexadecimal literal after its first character (the empty text and a
    lone [#] among them), and whatever it returns is one of [#606060],
    [#000000] and [#ffffff], the first of them for the text [#00000000]
    alone. *)
Theorem contrasting_color_outcome (color : string) :
  (forall e, contrasting_color color = Raise e ->
             e = ValueError /\ py_int16 (drop_first color) = Raise ValueError) /\
  (forall answer, contrasting_color color = Ok answer ->
     answer = "#606060"%string /\ color = "#00000000"%string \/
     (answer = "#000000"%string \/ answer = "#ffffff"%string) /\
     color <> "#00000000"%string) /\
  contrasting_color "" = Raise ValueError /\
  contrasting_color "#" = Raise ValueError.
Proof.
  split; [|split; [|split; reflexivity]].
  - intros e. unfold contrasting_color.
    destruct (String.eqb color "#00000000"); [discriminate|].
    destruct (py_int16 (drop_first color)) as [rgb|e'] eqn:Hint; cbn [bind];
      [discriminate|].
    intros H. inversion H; subst.
    pose proof (py_int16_raises _ _ Hint). subst. split; reflexivity.
  - intros answer. unfold contrasting_color.
    destruct (String.eqb_spec color "#00000000") as [->|Hne].
    + intros H. inversion H. left. split; reflexivity.
    + destruct (py_int16 (drop_first color)) as [rgb|e'] eqn:Hint; cbn [bind];
        [|discriminate].
      intros H. inversion H. right. split; [|exact Hne].
      unfold contrast_of. destruct (channels rgb) as [[r g] b].
      destruct (r * 299 + g * 587 + b * 114 >? 130000); [left | right];
        reflexivity.
Qed.

Lemma contrasting_color_outcome_witness :
  "#ffffff"%string = "#606060"%string /\ "red"%string = "#00000000"%string \/
  ("#ffffff"%string = "#000000"%string \/ "#ffffff"%string = "#ffffff"%string) /\
  "red"%string <> "#00000000"%string.
Proof.
  exact (proj1 (proj2 (contrasting_color_outcome "red")) "#ffffff"%string eq_refl).
Defined.

(** ** The addresses built by [BaseApi] and [ApiLive] *)

Lemma lstrip_slash_slashes n s :
  lstrip_slash (slashes n ++ s) = lstrip_slash s.
Proof.
  induction n as [|n IH]; [reflexivity|].
  change (slashes (S n) ++ s)%string with (String "/" (slashes n ++ s)).
  cbn [lstrip_slash]. now rewrite Ascii.eqb_refl.
Qed.

Lemma rstrip_slash_only n : rstrip_slash (slashes n) = EmptyString.
Proof.
  induction n as [|n IH]; [reflexivity|].
  cbn [slashes rstrip_slash]. now rewrite IH, Ascii.eqb_refl.
Qed.

Lemma rstrip_slash_slashes n s :
  rstrip_slash (s ++ slashes n) = rstrip_slash s.
Proof.
  induction s as [|c s IH]; [apply rstrip_slash_only|].
  change (String c s ++ slashes n)%string with (String c (s ++ slashes n)).
  cbn [rstrip_slash]. now rewrite IH.
Qed.

Lemma lstrip_slash_shape s :
  (exists k, s = (slashes k ++ lstrip_slash s)%string) /\
  (forall rest, lstrip_slash s <> String "/" rest).
Proof.
  induction s as [|c s [[k Hk] IH]].
  - split; [now exists 0%nat | discriminate].
  - cbn [lstrip_slash]. destruct (Ascii.eqb_spec c "/") as [->|Hc].
    + split; [|exact IH]. exists (S k).
      change (slashes (S k) ++ lstrip_slash s)%string
        with (String "/" (slashes k ++ lstrip_slash s)).
      now rewrite <- Hk.
    + split; [now exists 0%nat | congruence].
Qed.

(** X19.  Slashes at the seams of an address do not matter: any number of
    slashes at the end of the server name and at the start of the path give
    the address of the bare server name and path, and what follows the one
    slash that [_url] writes after the base address is the path without its
    leading slashes, which never starts with a slash. *)
Theorem url_ignores_seam_slashes (server api_type path : string) (n m : nat) :
  _url (new_BaseApi (server ++ slashes n) api_type) (slashes m ++ path)
  = _url (new_BaseApi server api_type) path /\
  exists (k : nat) (rest : string),
    path = (slashes k ++ rest)%string /\
    (forall tail, rest <> String "/" tail) /\
    _url (new_BaseApi server api_type) path
    = (base_url (new_BaseApi server api_type) ++ "/" ++ rest)%string.
Proof.
  split.
  - unfold _url, new_BaseApi. cbn [base_url].
    now rewrite rstrip_slash_slashes, lstrip_slash_slashes.
  - destruct (lstrip_slash_shape path) as [[k Hk] Hrest].
    exists k, (lstrip_slash path). now split; [|split].
Qed.

Lemma length_append_string (s t : string) :
  String.length (s ++ t) = (String.length s + String.length t)%nat.
Proof.
  induction s as [|c s IH]; [reflexivity|].
  change (String c s ++ t)%string with (String c (s ++ t)).
  cbn [String.length]. now rewrite IH.
Qed.

Lemma append_assoc_string (s t u : string) :
  ((s ++ t) ++ u)%string = (s ++ (t ++ u))%string.
Proof.
  induction s as [|c s IH]; [reflexivity|].
  change ((String c s ++ t) ++ u)%string with (String c ((s ++ t) ++ u)).
  now rewrite IH.
Qed.

(** X20.  [url_command_icon] writes the machine and the command into the
    query as they are, with no escaping: a machine name that contains
    [&c=] gives the address of another machine and command. *)
Theorem url_command_icon_unescaped (self : BaseApi) (machine c command : string) :
  (machine ++ "&c=" ++ c)%string <> machine /\
  url_command_icon self (machine ++ "&c=" ++ c) command
  = url_command_icon self machine (c ++ "&c=" ++ command).
Proof.
  split.
  - intros H. apply (f_equal String.length) in H.
    rewrite !length_append_string in H. cbn [String.length] in H. lia.
  - unfold url_command_icon. now rewrite !append_assoc_string.
Qed.

(** ** [group_resource_events] *)

Section GroupingFacts.

Import ResourceEvents.

Variable get_name : ResourceEvent -> string.

Lemma add_duration_lookup row event res :
  add_duration row event !! res
  = if String.eqb (resource event) res
    then Some (default 0 (row !! res) + duration event)
    else row !! res.
Proof.
  unfold add_duration. destruct (String.eqb_spec (resource event) res) as [->|Hne].
  - destruct (row !! res) as [so_far|]; rewrite lookup_insert_eq; cbn; f_equal; lia.
  - destruct (row !! resource event); now rewrite lookup_insert_ne.
Qed.

Lemma add_event_lookup result event name :
  add_event get_name result event !! name
  = if String.eqb (get_name event) name
    then Some (add_duration (default empty (result !! name)) event)
    else result !! name.
Proof.
  unfold add_event. cbv zeta.
  destruct (String.eqb_spec (get_name event) name) as [<-|Hne].
  - rewrite lookup_insert_eq.
    destruct (result !! get_name event) as [row|] eqn:Hrow.
    + now rewrite Hrow.
    + now rewrite lookup_insert_eq.
  - rewrite lookup_insert_ne by exact Hne.
    destruct (result !! get_name event); [reflexivity|].
    now rewrite lookup_insert_ne.
Qed.

Lemma add_event_entry result event name res :
  entry (add_event get_name result event) name res
  = if selects get_name name res event
    then Some (default 0 (entry result name res) + duration event)
    else entry result name res.
Proof.
  unfold entry, selects. rewrite add_event_lookup.
  destruct (String.eqb (get_name event) name); [|reflexivity].
  cbn [andb]. rewrite add_duration_lookup.
  destruct (String.eqb (resource event) res).
  - destruct (result !! name) as [row|]; [reflexivity|].
    cbn. now rewrite lookup_empty.
  - destruct (result !! name) as [row|]; [reflexivity|].
    cbn. now rewrite lookup_empty.
Qed.

Lemma group_from_entry events : forall result name res,
  entry (group_from get_name result events) name res
  = match selected get_name name res events with
    | [] => entry result name res
    | chosen => Some (default 0 (entry result name res) + total_duration chosen)
    end.
Proof.
  induction events as [|event events IH]; intros result name res; [reflexivity|].
  unfold group_from in *. cbn [fold_left]. rewrite IH, add_event_entry.
  unfold selected. cbn [List.filter].
  destruct (selects get_name name res event).
  - destruct (List.filter (selects get_name name res) events) as [|e chosen].
    + f_equal. unfold total_duration. cbn. lia.
    + f_equal. unfold total_duration. cbn. lia.
  - reflexivity.
Qed.

Lemma group_from_names events : forall result name,
  is_Some (group_from get_name result events !! name)
  <-> is_Some (result !! name) \/ exists event, In event events /\ get_name event = name.
Proof.
  induction events as [|event events IH]; intros result name.
  - cbn. split; [now left|]. intros [H|[event [[] _]]]. exact H.
  - unfold group_from in *. cbn [fold_left]. rewrite IH, add_event_lookup.
    destruct (String.eqb_spec (get_name event) name) as [Heq|Hne].
    + split; [|intros _; left; eauto].
      intros _. right. exists event. split; [now left | exact Heq].
    + split.
      * intros [H|[e [Hin He]]]; [now left|].
        right. exists e. split; [now right | exact He].
      * intros [H|[e [[->|Hin] He]]]; [now left | contradiction |].
        right. now exists e.
Qed.

Lemma empty_entry name res :
  entry (empty : gmap string (gmap string Z)) name res = None.
Proof. unfold entry. now rewrite lookup_empty. Qed.

(** X21.  [group_resource_events] returns [None] exactly for [None] and
    for the empty list.  On a list with an event it returns a dictionary
    whose keys are the names that [get_name] gives to some event; under a
    name and a resource it holds the sum of [end - start] over the events
    of that name and resource, and nothing when there is no such event. *)
Theorem group_resource_events_sums (events : list ResourceEvent) :
  (forall given, group_resource_events get_name given = None
                 <-> given = None \/ given = Some []) /\
  (events <> [] ->
   exists result,
     group_resource_events get_name (Some events) = Some result /\
     (forall name,
        is_Some (result !! name)
        <-> exists event, In event events /\ get_name event = name) /\
     (forall name res,
        entry result name res
        = match selected get_name name res events with
          | [] => None
          | chosen => Some (total_duration chosen)
          end)).
Proof.
  split.
  - intros [[|e l]|]; cbn; split; try tauto; try discriminate;
      intros [H|H]; discriminate.
  - intros Hne. exists (group_from get_name empty events). split; [|split].
    + destruct events; [contradiction | reflexivity].
    + intros name. rewrite group_from_names. split; [|now right].
      intros [H|H]; [|exact H]. rewrite lookup_empty in H. now destruct H.
    + intros name res. rewrite group_from_entry, empty_entry.
      destruct (selected get_name name res events); [reflexivity|].
      cbn. f_equal; lia.
Qed.

Lemma add_duration_comm row a b :
  add_duration (add_duration row a) b = add_duration (add_duration row b) a.
Proof.
  apply map_eq. intros res. rewrite !add_duration_lookup.
  destruct (String.eqb (resource a) res), (String.eqb (resource b) res);
    cbn; try reflexivity.
  f_equal. lia.
Qed.

Lemma add_event_comm result a b :
  add_event get_name (add_event get_name result a) b
  = add_event get_name (add_event get_name result b) a.
Proof.
  apply map_eq. intros name. rewrite !add_event_lookup.
  destruct (String.eqb (get_name a) name), (String.eqb (get_name b) name);
    cbn; try reflexivity.
  f_equal. apply add_duration_comm.
Qed.

Lemma group_from_permutation events events' :
  Permutation events events' ->
  forall result,
    group_from get_name result events = group_from get_name result events'.
Proof.
  unfold group_from.
  induction 1 as [|e l l' _ IH|a b l|l l' l'' _ IH1 _ IH2]; intros result.
  - reflexivity.
  - cbn [fold_left]. apply IH.
  - cbn [fold_left]. now rewrite add_event_comm.
  - now rewrite IH1.
Qed.

(** X22.  The dictionary does not depend on the order of the events: two
    lists with the same events in another order give equal results (as
    Python's [==] on dictionaries, which ignores the order of insertion). *)
Theorem group_resource_events_order (events events' : list ResourceEvent) :
  Permutation events events' ->
  group_resource_events get_name (Some events)
  = group_resource_events get_name (Some events').
Proof.
  intros Hperm. unfold group_resource_events.
  destruct events as [|e l], events' as [|e' l'].
  - reflexivity.
  - now apply Permutation_nil in Hperm.
  - now apply Permutation_sym, Permutation_nil in Hperm.
  - f_equal. now apply group_from_permutation.
Qed.

End GroupingFacts.

Lemma group_resource_events_sums_witness :
  let event :=
    {| ResourceEvents.start := 10; ResourceEvents.stop := 25;
       ResourceEvents.resource := "run" |} in
  exists result,
    ResourceEvents.group_resource_events (fun _ => "M1"%string) (Some [event; event])
    = Some result /\
    ResourceEvents.entry result "M1" "run" = Some 30.
Proof.
  intros event.
  destruct (proj2 (group_resource_events_sums (fun _ => "M1"%string) [event; event]))
    as [result [Hresult [_ Hentry]]]; [discriminate|].
  exists result. split; [exact Hresult|]. now rewrite Hentry.
Defined.

Lemma group_resource_events_order_witness :
  let a := {| ResourceEvents.start := 0; ResourceEvents.stop := 5;
              ResourceEvents.resource := "run" |} in
  let b := {| ResourceEvents.start := 5; ResourceEvents.stop := 7;
              ResourceEvents.resource := "stop" |} in
  ResourceEvents.group_resource_events ResourceEvents.resource (Some [a; b])
  = ResourceEvents.group_resource_events ResourceEvents.resource (Some [b; a]).
Proof.
  intros a b. apply group_resource_events_order. apply perm_swap.
Defined.
